(** * JSONQL: selective reference resolution and projection

    A shallow embedding of [src/parser.ts] (class [JSONQL]) and the
    properties of its reference resolver ([resolveRef]), its selective
    expansion pass ([resolveAllRefs]), its projection pass
    ([filterResponse]) and the top-level [query].

    Conventions of the embedding.
    - A JSON number is an integer ([Z]); the engine never computes with
      the numbers of a document, it only copies them.
    - A JSON object is an association list in property order, as
      [Object.keys] enumerates it.  [JSON.parse] never yields an object
      with a repeated key; writes [result[key] = v] are [obj_set].
      Only own properties are modelled: names inherited from
      [Object.prototype] (such as [toString]) are not JSON values.
    - The engine's fields and the call log of the document store are
      threaded explicitly; a thrown [Error] is an outcome next to the
      returned value, and mutations made before the throw persist.
    - [console.log] and [console.error] are diagnostics and are omitted.
    - [resolveAllRefs] is an [async] method; sibling array elements are
      expanded here in index order.  [resolveRef] is synchronous, so it is
      atomic under any interleaving of the awaits. *)

From Stdlib Require Import Ascii String ZArith.
From stdpp Require Import base strings list gmap.

Set Warnings "-register-all".

Local Open Scope string_scope.
Local Open Scope Z_scope.

(** ** JSON values ([type JSONValue]) *)

Inductive JSONValue : Type :=
  | JNull
  | JBool (b : bool)
  | JNum (n : Z)
  | JStr (s : string)
  | JArr (items : list JSONValue)
  | JObj (props : list (string * JSONValue)).

(** [typeof v === "object" && v !== null] *)
Definition is_object (v : JSONValue) : bool :=
  match v with
  | JArr _ | JObj _ => true
  | _ => false
  end.

(** [Array.isArray(v)] *)
Definition isArray (v : JSONValue) : bool :=
  match v with
  | JArr _ => true
  | _ => false
  end.

(** The empty object literal [{}]. *)
Definition empty_object : JSONValue := JObj [].

(** ** Property lists *)

Section Props.
Context {A : Type}.

(** [obj[key]] on own properties. *)
Fixpoint obj_get (m : list (string * A)) (key : string) : option A :=
  match m with
  | [] => None
  | (k, v) :: rest => if String.eqb k key then Some v else obj_get rest key
  end.

(** [key in obj] *)
Definition obj_has (m : list (string * A)) (key : string) : bool :=
  match obj_get m key with
  | Some _ => true
  | None => false
  end.

(** [obj[key] = v]: overwrite in place, or append a new property. *)
Fixpoint obj_set (m : list (string * A)) (key : string) (v : A)
  : list (string * A) :=
  match m with
  | [] => [(key, v)]
  | (k, w) :: rest =>
      if String.eqb k key then (k, v) :: rest
      else (k, w) :: obj_set rest key v
  end.

End Props.

(** ** Strings: the few methods of [String.prototype] the engine uses *)

(** [s.split(sep)] for a one-character separator. *)
Fixpoint split_on (sep : ascii) (s : string) : list string :=
  match s with
  | EmptyString => [EmptyString]
  | String c rest =>
      if Ascii.eqb c sep then EmptyString :: split_on sep rest
      else match split_on sep rest with
           | [] => [String c EmptyString]
           | p :: ps => String c p :: ps
           end
  end.

(** [s.startsWith("/")] *)
Definition startsWith_slash (s : string) : bool :=
  match s with
  | String c _ => Ascii.eqb c "/"%char
  | EmptyString => false
  end.

(** [s.slice(1)] *)
Definition slice1 (s : string) : string :=
  match s with
  | String _ rest => rest
  | EmptyString => EmptyString
  end.

Definition digit_of (c : ascii) : option nat :=
  let n := nat_of_ascii c in
  if ((48 <=? n)%nat && (n <=? 57)%nat)%bool then Some (n - 48)%nat else None.

Fixpoint digits_value (acc : nat) (s : string) : option nat :=
  match s with
  | EmptyString => Some acc
  | String c rest =>
      match digit_of c with
      | Some d => digits_value (10 * acc + d)%nat rest
      | None => None
      end
  end.

(** A property name is an array index when it is the canonical decimal
    numeral of a natural number: ["0"], ["7"], ["10"], but not ["01"],
    ["-1"] or [""]. *)
Definition array_index (s : string) : option nat :=
  match s with
  | EmptyString => None
  | String c rest =>
      if (Ascii.eqb c "0"%char && negb (String.eqb rest ""))%bool then None
      else digits_value 0 s
  end.

(** [value[segment]] for a value that passed the [typeof] test: an own
    property of an object, an element or the [length] of an array.
    [None] is JavaScript's [undefined]. *)
Definition get_member (v : JSONValue) (segment : string) : option JSONValue :=
  match v with
  | JObj m => obj_get m segment
  | JArr l =>
      if String.eqb segment "length" then Some (JNum (Z.of_nat (length l)))
      else match array_index segment with
           | Some i => l !! i
           | None => None
           end
  | _ => None
  end.

(** ** Selection trees

    The [Record<string, any>] built by [processNestedQuery]: every field
    maps to an object, the empty object marking a leaf. *)

Inductive Selections : Type :=
  | Sel (fields : list (string * Selections)).

Definition sel_fields (s : Selections) : list (string * Selections) :=
  match s with Sel fs => fs end.

Definition no_selections : Selections := Sel [].

(** [Object.keys(selections).length === 0] *)
Definition sel_is_empty (s : Selections) : bool :=
  match sel_fields s with
  | [] => true
  | _ :: _ => false
  end.

(** [key in selections] *)
Definition sel_has (s : Selections) (key : string) : bool :=
  obj_has (sel_fields s) key.

(** [selections[key] || {}] *)
Definition sel_child (s : Selections) (key : string) : Selections :=
  match obj_get (sel_fields s) key with
  | Some sub => sub
  | None => no_selections
  end.

(** ** Projection: [filterResponse] (parser.ts 327-367)

    The outer recursion follows the selection tree, the inner one the
    data: an array keeps the selections and descends into its items, an
    object descends into both. *)

(** The loop [for (const key in selections)] over the object [props],
    with [recur] standing for the recursive call. *)
Definition filter_fields (recur : Selections -> JSONValue -> JSONValue)
    (props : list (string * JSONValue))
  : list (string * Selections) -> list (string * JSONValue) ->
    list (string * JSONValue) :=
  fix each_key fs result :=
    match fs with
    | [] => result
    | (key, subSelections) :: rest =>
        match obj_get props key with
        | Some value =>
            if is_object value then
              each_key rest (obj_set result key (recur subSelections value))
            else each_key rest (obj_set result key value)
        | None => each_key rest result
        end
    end.

Fixpoint filterResponse_sel (selections : Selections) : JSONValue -> JSONValue :=
  fix on_data (data : JSONValue) : JSONValue :=
    match data with
    | JArr items => JArr (map on_data items)
    | JObj props =>
        JObj (filter_fields filterResponse_sel props (sel_fields selections) [])
    | _ => data
    end.

Definition filterResponse (data : JSONValue) (selections : Selections)
  : JSONValue :=
  filterResponse_sel selections data.

(** ** The engine ([class JSONQL]) *)

Record JSONQL : Type := mkJSONQL {
  rootDir : string;
  maxDepth : Z;
  cache : gmap string JSONValue;
  enableCache : bool;
  visitedRefs : gset string
}.

(** A JavaScript number as far as the constructor tells numbers apart:
    an integer or [NaN].  A limit that is not an integer bounds the
    integer depths like the integer below it and is not modelled. *)
Inductive JSNumber : Type :=
  | Num (n : Z)
  | NaN.

Record JSONQLOptions : Type := mkOptions {
  opt_rootDir : string;
  opt_maxDepth : option JSNumber;
  opt_cache : option bool
}.

(** [options.maxDepth || 10]: [undefined], [0] and [NaN] are falsy. *)
Definition maxDepth_or_10 (m : option JSNumber) : Z :=
  match m with
  | Some (Num n) => if n =? 0 then 10 else n
  | Some NaN => 10
  | None => 10
  end.

Definition falsy (m : option JSNumber) : bool :=
  match m with
  | Some (Num n) => n =? 0
  | Some NaN => true
  | None => true
  end.

(** [options.cache !== false] *)
Definition cache_not_false (c : option bool) : bool :=
  match c with
  | Some false => false
  | _ => true
  end.

(** [constructor(options)] (parser.ts 31-37) *)
Definition new_JSONQL (options : JSONQLOptions) : JSONQL :=
  {| rootDir := opt_rootDir options;
     maxDepth := maxDepth_or_10 (opt_maxDepth options);
     enableCache := cache_not_false (opt_cache options);
     cache := ∅;
     visitedRefs := ∅ |}.

(** ** Outcomes and the state the methods run in

    The errors are named after the messages of the [Error]s the code
    throws: "Max reference depth exceeded" (with the reference when
    [resolveRef] throws it), "Circular reference detected" (thrown by the
    compiled build only), "File not found", "Failed to parse JSON file",
    "Cannot navigate fragment path", "Fragment path not found", the
    syntax error of the graphql parser and the [TypeError] of the [in]
    operator. *)

Inductive Error : Type :=
  | MaxDepthExceeded (possibleCycle : option string)
  | CircularReference (ref : string)
  | FileNotFound (absolutePath : string)
  | JSONParseFailed (absolutePath : string)
  | CannotNavigate (fragment filePath : string)
  | FragmentNotFound (fragment filePath : string)
  | QuerySyntaxError
  | TypeError.

Inductive Outcome (A : Type) : Type :=
  | Returned (a : A)
  | Thrown (e : Error)
  | OutOfFuel.

Arguments Returned {A} a.
Arguments Thrown {A} e.
Arguments OutOfFuel {A}.

(** The engine together with the log of the document store: one entry,
    the requested path, for every call of [loadJSON]. *)
Record World : Type := mkWorld {
  this : JSONQL;
  loadCalls : list string
}.

Definition M (A : Type) : Type := World -> Outcome A * World.

Definition ret {A} (a : A) : M A := fun w => (Returned a, w).

Definition throw {A} (e : Error) : M A := fun w => (Thrown e, w).

Definition out_of_fuel {A} : M A := fun w => (OutOfFuel, w).

Definition bind {A B} (c : M A) (k : A -> M B) : M B :=
  fun w =>
    match c w with
    | (Returned a, w') => k a w'
    | (Thrown e, w') => (Thrown e, w')
    | (OutOfFuel, w') => (OutOfFuel, w')
    end.

(** [try { c } catch (error) { handler }] *)
Definition try_catch {A} (c : M A) (handler : Error -> M A) : M A :=
  fun w =>
    match c w with
    | (Thrown e, w') => handler e w'
    | r => r
    end.

Notation "'let*' x ':=' c 'in' k" := (bind c (fun x => k))
  (at level 10, x name, c at level 100, k at level 200).
Notation "c ';;' k" := (bind c (fun _ => k))
  (at level 100, k at level 200, right associativity).

Definition get_this : M JSONQL := fun w => (Returned (this w), w).

Definition update_this (f : JSONQL -> JSONQL) : M unit :=
  fun w => (Returned tt, {| this := f (this w); loadCalls := loadCalls w |}).

Definition with_visitedRefs (f : gset string -> gset string) (e : JSONQL)
  : JSONQL :=
  {| rootDir := rootDir e; maxDepth := maxDepth e; cache := cache e;
     enableCache := enableCache e; visitedRefs := f (visitedRefs e) |}.

Definition with_cache (f : gmap string JSONValue -> gmap string JSONValue)
    (e : JSONQL) : JSONQL :=
  {| rootDir := rootDir e; maxDepth := maxDepth e; cache := f (cache e);
     enableCache := enableCache e; visitedRefs := visitedRefs e |}.

(** [this.visitedRefs.add(ref)] *)
Definition visitedRefs_add (ref : string) : M unit :=
  update_this (with_visitedRefs (fun s => {[ref]} ∪ s)).

(** [this.visitedRefs.delete(ref)] *)
Definition visitedRefs_delete (ref : string) : M unit :=
  update_this (with_visitedRefs (fun s => s ∖ {[ref]})).

(** [this.visitedRefs.clear()] *)
Definition visitedRefs_clear : M unit :=
  update_this (with_visitedRefs (fun _ => ∅)).

(** [if (this.enableCache) this.cache.set(ref, result)] *)
Definition cache_set_if_enabled (ref : string) (result : JSONValue) : M unit :=
  update_this (fun e =>
    if enableCache e then with_cache (fun c => <[ref := result]> c) e else e).

(** [clearCache()] (parser.ts 412-414) *)
Definition clearCache : M unit :=
  update_this (with_cache (fun _ => ∅)).

Definition log_load (filePath : string) : M unit :=
  fun w => (Returned tt,
            {| this := this w; loadCalls := loadCalls w ++ [filePath] |}).

(** ** The query syntax tree consumed from the [graphql] parser *)

Inductive SelectionSetNode : Type :=
  | SelectionSet (selections : list SelectionNode)
with SelectionNode : Type :=
  | Field (name : string) (selectionSet : option SelectionSetNode)
  | FragmentSpread (name : string)
  | InlineFragment (selectionSet : SelectionSetNode).

Inductive DefinitionNode : Type :=
  | OperationDefinition (selectionSet : SelectionSetNode)
  | OtherDefinition.

Definition DocumentNode : Type := list DefinitionNode.

(** [processNestedSelections(selectionSet, result)] (parser.ts 298-322);
    the object [result] filled in place is returned. *)
Fixpoint processNestedSelections (selectionSet : SelectionSetNode)
    (result : list (string * Selections)) : list (string * Selections) :=
  match selectionSet with
  | SelectionSet selections =>
      (fix each (sels : list SelectionNode)
           (result : list (string * Selections)) :=
         match sels with
         | [] => result
         | Field fieldName (Some sub) :: rest =>
             each rest
               (obj_set result fieldName (Sel (processNestedSelections sub [])))
         | Field fieldName None :: rest =>
             each rest (obj_set result fieldName no_selections)
         | _ :: rest => each rest result
         end) selections result
  end.

(** The loop of [processNestedQuery] over the selections of one
    operation (parser.ts 275-288). *)
Fixpoint root_selections (sels : list SelectionNode)
    (rootSelections : list (string * Selections))
  : list (string * Selections) :=
  match sels with
  | [] => rootSelections
  | Field fieldName (Some sub) :: rest =>
      root_selections rest
        (obj_set rootSelections fieldName (Sel (processNestedSelections sub [])))
  | Field fieldName None :: rest =>
      root_selections rest (obj_set rootSelections fieldName no_selections)
  | _ :: rest => root_selections rest rootSelections
  end.

(** [processNestedQuery] after the call of [parse] (parser.ts 270-292). *)
Fixpoint selections_of_document (definitions : DocumentNode)
    (rootSelections : list (string * Selections))
  : list (string * Selections) :=
  match definitions with
  | [] => rootSelections
  | OperationDefinition (SelectionSet sels) :: rest =>
      selections_of_document rest (root_selections sels rootSelections)
  | OtherDefinition :: rest => selections_of_document rest rootSelections
  end.

(** ** Fragment navigation (parser.ts 129-148) *)

(** [fragment.startsWith("/") ? fragment.slice(1).split("/")
                               : fragment.split("/")] *)
Definition fragmentPath (fragment : string) : list string :=
  if startsWith_slash fragment then split_on "/"%char (slice1 fragment)
  else split_on "/"%char fragment.

(** The body of the loop [for (const segment of fragmentPath)]:
    [inl] is the value reached, [inr] the error thrown on the way. *)
Fixpoint navigate (fragment filePath : string) (result : JSONValue)
    (segments : list string) : JSONValue + Error :=
  match segments with
  | [] => inl result
  | segment :: rest =>
      if negb (is_object result) then inr (CannotNavigate fragment filePath)
      else match get_member result segment with
           | None => inr (FragmentNotFound fragment filePath)
           | Some next => navigate fragment filePath next rest
           end
  end.

(** [let [filePath, fragment] = ref.split("#")] *)
Definition ref_filePath (ref : string) : string :=
  match split_on "#"%char ref with
  | filePath :: _ => filePath
  | [] => ""
  end.

Definition ref_fragment (ref : string) : option string :=
  match split_on "#"%char ref with
  | _ :: fragment :: _ => Some fragment
  | _ => None
  end.

(** [!fragment]: [undefined] or the empty string. *)
Definition no_fragment (fragment : option string) : bool :=
  match fragment with
  | None => true
  | Some f => String.eqb f ""
  end.

(** [isRef(obj)] (parser.ts 170-177) *)
Definition isRef (obj : JSONValue) : bool :=
  match obj with
  | JObj props =>
      match obj_get props "$ref" with
      | Some (JStr _) => true
      | _ => false
      end
  | _ => false
  end.

(** [data.$ref] of a value that satisfies [isRef]. *)
Definition dollar_ref (data : JSONValue) : string :=
  match data with
  | JObj props =>
      match obj_get props "$ref" with
      | Some (JStr ref) => ref
      | _ => ""
      end
  | _ => ""
  end.

(** The reference object [{"$ref": ref}]. *)
Definition ref_to (ref : string) : JSONValue := JObj [("$ref", JStr ref)].

(** [items.map(f)] for an effectful [f], left to right. *)
Fixpoint map_M {A B} (f : A -> M B) (items : list A) : M (list B) :=
  match items with
  | [] => ret []
  | item :: rest =>
      let* b := f item in
      let* bs := map_M f rest in
      ret (b :: bs)
  end.

(** ** The host: node:fs, node:path, JSON and the graphql parser

    [readFileSync] is [None] when it throws; [JSON_parse] and [parse] are
    [None] when they reject their input.  The file system does not change
    while the engine runs. *)

Record Host : Type := mkHost {
  path_resolve : string -> string -> string;
  existsSync : string -> bool;
  readFileSync : string -> option string;
  JSON_parse : string -> option JSONValue;
  parse : string -> option DocumentNode
}.

(** ** The methods of the engine *)

Section Engine.

Variable host : Host.

(** What [loadJSON] computes from the file system (parser.ts 45-63). *)
Definition read_document (root filePath : string) : JSONValue + Error :=
  let absolutePath :=
    path_resolve host root
      (if startsWith_slash filePath then slice1 filePath else filePath) in
  if negb (existsSync host absolutePath) then inr (FileNotFound absolutePath)
  else match readFileSync host absolutePath with
       | Some fileContent =>
           match JSON_parse host fileContent with
           | Some v => inl v
           | None => inr (JSONParseFailed absolutePath)
           end
       | None => inr (JSONParseFailed absolutePath)
       end.

(** [loadJSON(filePath)] (parser.ts 42-64) *)
Definition loadJSON (filePath : string) : M JSONValue :=
  log_load filePath ;;
  let* self := get_this in
  match read_document (rootDir self) filePath with
  | inl v => ret v
  | inr e => throw e
  end.

(** [this.enableCache && this.cache.has(ref)], then [this.cache.get(ref)] *)
Definition cached (self : JSONQL) (ref : string) : option JSONValue :=
  if enableCache self then cache self !! ref else None.

(** [resolveRef(ref, depth)] (parser.ts 69-165) *)
Definition resolveRef (ref : string) (depth : Z) : M JSONValue :=
  let* self := get_this in
  if maxDepth self <? depth then throw (MaxDepthExceeded (Some ref))
  else if bool_decide (ref ∈ visitedRefs self) then ret empty_object
  else
    visitedRefs_add ref ;;
    match cached self ref with
    | Some cachedValue => visitedRefs_delete ref ;; ret cachedValue
    | None =>
        let filePath := ref_filePath ref in
        if no_fragment (ref_fragment ref) then
          try_catch
            (let* result := loadJSON filePath in
             cache_set_if_enabled ref result ;;
             visitedRefs_delete ref ;;
             ret result)
            (fun _ => visitedRefs_delete ref ;; ret empty_object)
        else
          let fragment := default "" (ref_fragment ref) in
          let* loaded :=
            try_catch (let* document := loadJSON filePath in ret (Some document))
                      (fun _ => visitedRefs_delete ref ;; ret None) in
          match loaded with
          | None => ret empty_object
          | Some document =>
              let* result :=
                try_catch
                  (match navigate fragment filePath document
                           (fragmentPath fragment) with
                   | inl result =>
                       cache_set_if_enabled ref result ;; ret result
                   | inr e => throw e
                   end)
                  (fun _ => ret empty_object) in
              visitedRefs_delete ref ;;
              ret result
          end
    end.

(** The loop [for (const key of Object.keys(data))] of [resolveAllRefs]
    (parser.ts 214-226), with [recur] standing for the recursive call. *)
Fixpoint expand_props (recur : JSONValue -> Selections -> M JSONValue)
    (selections : Selections) (props : list (string * JSONValue))
    (result : list (string * JSONValue)) : M (list (string * JSONValue)) :=
  match props with
  | [] => ret result
  | (key, value) :: rest =>
      if (sel_has selections key || sel_is_empty selections)%bool then
        let* v := recur value (sel_child selections key) in
        expand_props recur selections rest (obj_set result key v)
      else expand_props recur selections rest result
  end.

(** [resolveAllRefs(data, selections, depth)] (parser.ts 182-229).  Every
    recursive call is at [depth + 1] and a call deeper than [maxDepth]
    throws at once, so the recursion is bounded; [fuel] makes that bound
    structural. *)
Fixpoint resolveAllRefs_fuel (fuel : nat) (data : JSONValue)
    (selections : Selections) (depth : Z) : M JSONValue :=
  match fuel with
  | O => out_of_fuel
  | S fuel' =>
      let* self := get_this in
      if maxDepth self <? depth then throw (MaxDepthExceeded None)
      else
        match data with
        | JArr items =>
            let* items' :=
              map_M (fun item =>
                       resolveAllRefs_fuel fuel' item selections (depth + 1))
                    items in
            ret (JArr items')
        | JObj props =>
            if isRef data then
              let* resolved := resolveRef (dollar_ref data) depth in
              resolveAllRefs_fuel fuel' resolved selections (depth + 1)
            else
              let* result :=
                expand_props
                  (fun value subSelections =>
                     resolveAllRefs_fuel fuel' value subSelections (depth + 1))
                  selections props [] in
              ret (JObj result)
        | _ => ret data
        end
  end.

(** Calls that can be nested below [depth] before one throws, plus one. *)
Definition fuel_for (limit depth : Z) : nat :=
  S (Z.to_nat (limit + 1 - depth)).

Definition resolveAllRefs (data : JSONValue) (selections : Selections)
    (depth : Z) : M JSONValue :=
  let* self := get_this in
  resolveAllRefs_fuel (fuel_for (maxDepth self) depth) data selections depth.

(** [processNestedQuery(query)] (parser.ts 268-293) *)
Definition processNestedQuery (queryStr : string) : M Selections :=
  match parse host queryStr with
  | Some ast => ret (Sel (selections_of_document ast []))
  | None => throw QuerySyntaxError
  end.

(** The loop [for (const key in querySelections)] of [query]
    (parser.ts 386-400).  [key in rootData] throws a [TypeError] when the
    root document is not an object. *)
Fixpoint query_fields (rootData : JSONValue)
    (fs : list (string * Selections)) (result : list (string * JSONValue))
  : M (list (string * JSONValue)) :=
  match fs with
  | [] => ret result
  | (key, selections) :: rest =>
      if negb (is_object rootData) then throw TypeError
      else match get_member rootData key with
           | Some value =>
               let* dataWithResolvedRefs := resolveAllRefs value selections 0 in
               query_fields rootData rest
                 (obj_set result key
                    (filterResponse dataWithResolvedRefs selections))
           | None => query_fields rootData rest result
           end
  end.

(** [query(entryFile, queryStr)] (parser.ts 372-407); the [catch] block
    logs and rethrows. *)
Definition query (entryFile queryStr : string) : M JSONValue :=
  visitedRefs_clear ;;
  let* rootData := loadJSON entryFile in
  let* querySelections := processNestedQuery queryStr in
  let* result := query_fields rootData (sel_fields querySelections) [] in
  ret (JObj result).

End Engine.

(** ** The resolver of the compiled build (dist/test.js 83-130)

    An earlier [resolveRef]: a visited reference is an error, a cached
    value is returned without removing the reference from the set, and
    the errors of the load and of the navigation are not caught. *)

Module Dist.

Definition resolveRef (host : Host) (ref : string) (depth : Z) : M JSONValue :=
  let* self := get_this in
  if maxDepth self <? depth then throw (MaxDepthExceeded (Some ref))
  else if bool_decide (ref ∈ visitedRefs self) then throw (CircularReference ref)
  else
    visitedRefs_add ref ;;
    match cached self ref with
    | Some cachedValue => ret cachedValue
    | None =>
        let filePath := ref_filePath ref in
        if no_fragment (ref_fragment ref) then
          let* result := loadJSON host filePath in
          cache_set_if_enabled ref result ;;
          visitedRefs_delete ref ;;
          ret result
        else
          let fragment := default "" (ref_fragment ref) in
          let* document := loadJSON host filePath in
          match navigate fragment filePath document (fragmentPath fragment) with
          | inl result =>
              cache_set_if_enabled ref result ;;
              visitedRefs_delete ref ;;
              ret result
          | inr e => throw e
          end
    end.

End Dist.

(** ** What the methods compute, without the cache

    The functions below read the file system only.  They are the
    reference against which the stateful methods are compared: the value
    a reference stands for, and the expansion of a value when [budget]
    more levels may be entered. *)

Section Denotation.

Variable host : Host.
Variable root : string.

(** What [resolveRef] computes for [ref] when it has to load it: the
    document or the value the fragment leads to, or the error raised by
    the load or by the navigation. *)
Definition resolve_result (ref : string) : JSONValue + Error :=
  match read_document host root (ref_filePath ref) with
  | inr e => inr e
  | inl document =>
      if no_fragment (ref_fragment ref) then inl document
      else
        let fragment := default "" (ref_fragment ref) in
        navigate fragment (ref_filePath ref) document (fragmentPath fragment)
  end.

(** The value [resolveRef] then returns: an error becomes [{}]. *)
Definition resolve_value (ref : string) : JSONValue :=
  match resolve_result ref with
  | inl v => v
  | inr _ => empty_object
  end.

Fixpoint expansion_props (recur : JSONValue -> Selections -> option JSONValue)
    (selections : Selections) (props : list (string * JSONValue))
    (result : list (string * JSONValue))
  : option (list (string * JSONValue)) :=
  match props with
  | [] => Some result
  | (key, value) :: rest =>
      if (sel_has selections key || sel_is_empty selections)%bool then
        match recur value (sel_child selections key) with
        | Some v => expansion_props recur selections rest (obj_set result key v)
        | None => None
        end
      else expansion_props recur selections rest result
  end.

(** [None] stands for the one error expansion can end with, "Max
    reference depth exceeded". *)
Fixpoint expansion (budget : nat) (data : JSONValue) (selections : Selections)
  : option JSONValue :=
  match budget with
  | O => None
  | S b =>
      match data with
      | JArr items =>
          match mapM (fun item => expansion b item selections) items with
          | Some items' => Some (JArr items')
          | None => None
          end
      | JObj props =>
          if isRef data then
            expansion b (resolve_value (dollar_ref data)) selections
          else
            match expansion_props (expansion b) selections props [] with
            | Some result => Some (JObj result)
            | None => None
            end
      | _ => Some data
      end
  end.

Fixpoint answer_fields (limit : Z) (rootData : JSONValue)
    (fs : list (string * Selections)) (result : list (string * JSONValue))
  : Outcome (list (string * JSONValue)) :=
  match fs with
  | [] => Returned result
  | (key, selections) :: rest =>
      if negb (is_object rootData) then Thrown TypeError
      else match get_member rootData key with
           | Some value =>
               match expansion (Z.to_nat (limit + 1)) value selections with
               | Some expanded =>
                   answer_fields limit rootData rest
                     (obj_set result key (filterResponse expanded selections))
               | None => Thrown (MaxDepthExceeded None)
               end
           | None => answer_fields limit rootData rest result
           end
  end.

(** The outcome of [query] as a function of the documents alone. *)
Definition answer (limit : Z) (entryFile queryStr : string)
  : Outcome JSONValue :=
  match read_document host root entryFile with
  | inr e => Thrown e
  | inl rootData =>
      match parse host queryStr with
      | None => Thrown QuerySyntaxError
      | Some ast =>
          match answer_fields limit rootData (selections_of_document ast []) []
          with
          | Returned result => Returned (JObj result)
          | Thrown e => Thrown e
          | OutOfFuel => OutOfFuel
          end
      end
  end.

(** Every cached value is the value its reference stands for. *)
Definition cache_ok (c : gmap string JSONValue) : Prop :=
  forall ref v, c !! ref = Some v -> resolve_value ref = v.


End Denotation.

(** The engine after [ref] has been resolved by loading: a value that
    was reached is cached, if the cache is enabled. *)
Definition remember (host : Host) (e : JSONQL) (ref : string) : JSONQL :=
  match resolve_result host (rootDir e) ref with
  | inl v =>
      if enableCache e then with_cache (fun c => <[ref := v]> c) e else e
  | inr _ => e
  end.

Definition outcome_of {A} (o : option A) : Outcome A :=
  match o with
  | Some a => Returned a
  | None => Thrown (MaxDepthExceeded None)
  end.

(** The levels that may still be entered at [depth]. *)
Definition budget_of (limit depth : Z) : nat := Z.to_nat (limit + 1 - depth).

(** The two engines agree on everything but the cache and the set of
    visited references. *)
Definition same_engine (w w' : World) : Prop :=
  rootDir (this w') = rootDir (this w) /\
  maxDepth (this w') = maxDepth (this w) /\
  enableCache (this w') = enableCache (this w).

(** The state between two calls of [resolveRef]: no reference is being
    visited, and the cache agrees with the documents. *)
Definition settled (host : Host) (w : World) : Prop :=
  visitedRefs (this w) = ∅ /\
  cache_ok host (rootDir (this w)) (cache (this w)).

(** The states an engine built from [options] goes through. *)
Inductive reachable (host : Host) (options : JSONQLOptions) : World -> Prop :=
  | reach_new calls :
      reachable host options
        {| this := new_JSONQL options; loadCalls := calls |}
  | reach_query w entryFile queryStr :
      reachable host options w ->
      reachable host options (snd (query host entryFile queryStr w))
  | reach_clearCache w :
      reachable host options w ->
      reachable host options (snd (clearCache w)).


(** [c] run from a settled state of an engine with root [root] and limit
    [limit] ends with the outcome [o], in a settled state of the same
    engine. *)
Definition ready (host : Host) (root : string) (limit : Z) (w : World) : Prop :=
  rootDir (this w) = root /\ maxDepth (this w) = limit /\ settled host w.

Definition computes {A} (host : Host) (root : string) (limit : Z)
    (c : M A) (o : option A) : Prop :=
  forall w, ready host root limit w ->
    exists w', c w = (outcome_of o, w') /\ same_engine w w' /\ settled host w'.

(** ** A concrete host, for running the engine on examples *)

Module Demo.

Definition author : JSONValue :=
  JObj [("name", JStr "Orwell"); ("born", JNum 1903)].

Definition books : JSONValue :=
  JObj [("books",
         JArr [JObj [("title", JStr "1984");
                     ("author", ref_to "/authors/a1.json");
                     ("publisher", ref_to "/publishers/p1.json")]])].

(** [/p.json] is a document whose entry [a] refers to [/p.json] itself. *)
Definition selfref : JSONValue :=
  JObj [("a", ref_to "/p.json"); ("b", JNum 1)].

(** The files under the root directory [data]: the value their text
    parses to, or [None] for a text that is not JSON.  [/hop1.json] and
    [/hop2.json] form a chain of references ending in a string. *)
Definition files : list (string * option JSONValue) :=
  [ ("data/books.json", Some books);
    ("data/authors/a1.json", Some author);
    ("data/p.json", Some selfref);
    ("data/hop1.json", Some (ref_to "/hop2.json"));
    ("data/hop2.json", Some (JStr "end"));
    ("data/bad.json", None) ].

Definition leaf (name : string) : SelectionNode := Field name None.

Definition node (name : string) (sels : list SelectionNode) : SelectionNode :=
  Field name (Some (SelectionSet sels)).

Definition operation (sels : list SelectionNode) : DocumentNode :=
  [OperationDefinition (SelectionSet sels)].

(** The query texts the examples use, with their syntax trees. *)
Definition queries : list (string * DocumentNode) :=
  [ ("{ a { a } }", operation [node "a" [leaf "a"]]);
    ("{ a { b } }", operation [node "a" [leaf "b"]]);
    ("{ books { title author { name } } }",
     operation [node "books" [leaf "title"; node "author" [leaf "name"]]]) ].

(** A file's text is represented by its path. *)
Definition host : Host :=
  {| path_resolve := fun root p => root +:+ "/" +:+ p;
     existsSync := fun p => obj_has files p;
     readFileSync := fun p => Some p;
     JSON_parse := fun text =>
       match obj_get files text with
       | Some (Some v) => Some v
       | _ => None
       end;
     parse := fun text => obj_get queries text |}.

Definition options (limit : option JSNumber) (caching : option bool)
  : JSONQLOptions :=
  {| opt_rootDir := "data"; opt_maxDepth := limit; opt_cache := caching |}.

(** A new engine and a store that has not been called. *)
Definition start (limit : option JSNumber) (caching : option bool) : World :=
  {| this := new_JSONQL (options limit caching); loadCalls := [] |}.

(** An engine whose set of visited references holds [/p.json]. *)
Definition visiting : World :=
  {| this := with_visitedRefs (fun _ => {["/p.json"]})
               (new_JSONQL (options None None));
     loadCalls := [] |}.

End Demo.

(** ** Further notions used by the properties *)

(** [s.includes(c)] for a character [c]. *)
Fixpoint has_char (c : ascii) (s : string) : bool :=
  match s with
  | EmptyString => false
  | String c' rest => (Ascii.eqb c' c || has_char c rest)%bool
  end.

(** What the methods never undo: from [w] to [w'] the engine is the same
    but for its cache, no reference has entered or left the set of
    visited references, no cache entry has been removed or changed (and
    none added when the cache is disabled), and the log of the store has
    only been extended. *)
Definition extends (w w' : World) : Prop :=
  same_engine w w' /\
  visitedRefs (this w') = visitedRefs (this w) /\
  cache (this w) ⊆ cache (this w') /\
  (enableCache (this w) = false -> cache (this w') = cache (this w)) /\
  loadCalls w `prefix_of` loadCalls w'.

(** A value in which no object is a reference. *)
Fixpoint ref_free (v : JSONValue) : bool :=
  match v with
  | JArr items => forallb ref_free items
  | JObj props =>
      (negb (isRef v) && forallb (fun kv => ref_free (snd kv)) props)%bool
  | _ => true
  end.



(** [filter_fields] on a selection without repeated key: one entry for
    every selected key the object has, in the order of the selection. *)
Definition projected_entry (recur : Selections -> JSONValue -> JSONValue)
    (props : list (string * JSONValue)) (field : string * Selections)
  : option (string * JSONValue) :=
  match obj_get props (fst field) with
  | Some value =>
      Some (fst field,
            if is_object value then recur (snd field) value else value)
  | None => None
  end.

(** A selection tree as the compiler builds it: at no level a key
    occurs twice. *)
Fixpoint sel_distinct (s : Selections) : Prop :=
  match s with
  | Sel fs =>
      NoDup fs.*1 /\
      (fix each (l : list (string * Selections)) : Prop :=
         match l with
         | [] => True
         | field :: rest => sel_distinct (snd field) /\ each rest
         end) fs
  end.

(** [selection.kind === "Field"] *)
Definition is_field (selection : SelectionNode) : bool :=
  match selection with
  | Field _ _ => true
  | _ => false
  end.

(** [selection] is a field called [name]. *)
Definition is_field_named (name : string) (selection : SelectionNode) : bool :=
  match selection with
  | Field n _ => String.eqb n name
  | _ => false
  end.

(** The tree a field contributes: that of its selection set, or the
    empty tree of a leaf. *)
Definition field_tree (selectionSet : option SelectionSetNode) : Selections :=
  match selectionSet with
  | Some sub => Sel (processNestedSelections sub [])
  | None => no_selections
  end.

(** ** [extractFieldSelections] (parser.ts 234-263)

    The flat reading of a query: for every top-level field the set of
    the names of its sub-fields, or the set holding ["*"] for a field
    without selection set. *)

(** The loop over [selection.selectionSet.selections] (parser.ts
    248-252), adding to the set of the field. *)
Fixpoint sub_field_names (subSelections : list SelectionNode)
    (names : gset string) : gset string :=
  match subSelections with
  | [] => names
  | Field name _ :: rest => sub_field_names rest ({[name]} ∪ names)
  | _ :: rest => sub_field_names rest names
  end.

(** The set stored for one field (parser.ts 244-256). *)
Definition field_set (selectionSet : option SelectionSetNode) : gset string :=
  match selectionSet with
  | Some (SelectionSet subSelections) => sub_field_names subSelections ∅
  | None => {["*"]}
  end.

(** The loop over the selections of one operation (parser.ts 241-258). *)
Fixpoint extract_fields (sels : list SelectionNode)
    (selections : list (string * gset string)) : list (string * gset string) :=
  match sels with
  | [] => selections
  | Field fieldName sub :: rest =>
      extract_fields rest (obj_set selections fieldName (field_set sub))
  | _ :: rest => extract_fields rest selections
  end.

(** The loop over [ast.definitions] (parser.ts 239-260). *)
Fixpoint extract_definitions (definitions : DocumentNode)
    (selections : list (string * gset string)) : list (string * gset string) :=
  match definitions with
  | [] => selections
  | OperationDefinition (SelectionSet sels) :: rest =>
      extract_definitions rest (extract_fields sels selections)
  | OtherDefinition :: rest => extract_definitions rest selections
  end.

Definition extractFieldSelections (host : Host) (queryStr : string)
  : M (list (string * gset string)) :=
  match parse host queryStr with
  | Some ast => ret (extract_definitions ast [])
  | None => throw QuerySyntaxError
  end.

(** How a set of [extractFieldSelections] describes a selection tree. *)
Definition describes (names : gset string) (tree : Selections) : Prop :=
  names = list_to_set (sel_fields tree).*1 \/
  names = {["*"]} /\ sel_fields tree = [].

(** The two lists have the same keys in the same order, and each set
    describes the tree beside it. *)
Definition side_by_side (sets : list (string * gset string))
    (trees : list (string * Selections)) : Prop :=
  Forall2 (fun s t => fst s = fst t /\ describes (snd s) (snd t)) sets trees.


(** The state in which [query] starts its work: the set of visited
    references cleared and the entry file requested from the store. *)
Definition query_started (entryFile : string) (w : World) : World :=
  {| this := with_visitedRefs (fun _ => ∅) (this w);
     loadCalls := loadCalls w ++ [entryFile] |}.

(** The engine after [this.visitedRefs.add(ref)]. *)
Definition marked (ref : string) (w : World) : World :=
  {| this := with_visitedRefs (fun s => {[ref]} ∪ s) (this w);
     loadCalls := loadCalls w |}.


(** ** The expansion of the compiled build (dist/test.js 143-170)

    There [resolveAllRefs] takes the set of the selected field names and
    passes the same set to every level. *)

Module DistExpand.

(** [fields.has(key) || fields.has("*")] *)
Definition selected (fields : gset string) (key : string) : bool :=
  (bool_decide (key ∈ fields) || bool_decide ("*" ∈ fields))%bool.

(** The loop [for (const key of Object.keys(data))] (dist/test.js
    162-168). *)
Fixpoint expand_props (recur : JSONValue -> M JSONValue)
    (fields : gset string) (props : list (string * JSONValue))
    (result : list (string * JSONValue)) : M (list (string * JSONValue)) :=
  match props with
  | [] => ret result
  | (key, value) :: rest =>
      if selected fields key then
        let* v := recur value in
        expand_props recur fields rest (obj_set result key v)
      else expand_props recur fields rest result
  end.

Fixpoint resolveAllRefs_fuel (host : Host) (fuel : nat) (data : JSONValue)
    (fields : gset string) (depth : Z) : M JSONValue :=
  match fuel with
  | O => out_of_fuel
  | S fuel' =>
      let* self := get_this in
      if maxDepth self <? depth then throw (MaxDepthExceeded None)
      else
        match data with
        | JArr items =>
            let* items' :=
              map_M (fun item =>
                       resolveAllRefs_fuel host fuel' item fields (depth + 1))
                    items in
            ret (JArr items')
        | JObj props =>
            if isRef data then
              let* resolved := Dist.resolveRef host (dollar_ref data) depth in
              resolveAllRefs_fuel host fuel' resolved fields (depth + 1)
            else
              let* result :=
                expand_props
                  (fun value =>
                     resolveAllRefs_fuel host fuel' value fields (depth + 1))
                  fields props [] in
              ret (JObj result)
        | _ => ret data
        end
  end.

Definition resolveAllRefs (host : Host) (data : JSONValue)
    (fields : gset string) (depth : Z) : M JSONValue :=
  let* self := get_this in
  resolveAllRefs_fuel host (fuel_for (maxDepth self) depth) data fields depth.

End DistExpand.

(** Every key of every object of a value, at every level, is in
    [fields]. *)
Fixpoint keys_within (fields : gset string) (v : JSONValue) : Prop :=
  match v with
  | JArr items =>
      (fix each (l : list JSONValue) : Prop :=
         match l with
         | [] => True
         | item :: rest => keys_within fields item /\ each rest
         end) items
  | JObj props =>
      (fix each (l : list (string * JSONValue)) : Prop :=
         match l with
         | [] => True
         | kv :: rest =>
             (fst kv ∈ fields /\ keys_within fields (snd kv)) /\ each rest
         end) props
  | _ => True
  end.

(** * Properties *)

(** ** Property lists *)

Section PropsFacts.
Context {A : Type}.
Implicit Types (m : list (string * A)) (key k : string).

Lemma obj_get_set_eq m key (v : A) : obj_get (obj_set m key v) key = Some v.
Proof.
  induction m as [|[k w] m IH]; cbn.
  - by rewrite String.eqb_refl.
  - destruct (String.eqb k key) eqn:E; cbn; by rewrite E.
Qed.

Lemma obj_get_set_ne m key k (v : A) :
  k <> key -> obj_get (obj_set m key v) k = obj_get m k.
Proof.
  intros Hne. induction m as [|[k' w] m IH]; cbn.
  - by rewrite (proj2 (String.eqb_neq key k)).
  - destruct (String.eqb k' key) eqn:E; cbn; [|by rewrite IH].
    apply String.eqb_eq in E as ->.
    by rewrite (proj2 (String.eqb_neq key k)).
Qed.



Lemma obj_get_Some_elem m key (v : A) :
  obj_get m key = Some v -> (key, v) ∈ m.
Proof.
  induction m as [|[k w] m IH]; cbn; [done|].
  destruct (String.eqb k key) eqn:E.
  - apply String.eqb_eq in E as ->. intros [= ->]. apply list_elem_of_here.
  - intros H. apply list_elem_of_further. auto.
Qed.

Lemma obj_set_keys m key k (v : A) :
  k ∈ (obj_set m key v).*1 -> k = key \/ k ∈ m.*1.
Proof.
  induction m as [|[k0 w] m IH]; cbn.
  - intros ->%list_elem_of_singleton. by left.
  - destruct (String.eqb k0 key); cbn; [by right|].
    intros [->|Hin]%elem_of_cons; [right; apply list_elem_of_here|].
    destruct (IH Hin); [by left | right; by apply list_elem_of_further].
Qed.

Lemma obj_set_keys_NoDup m key (v : A) :
  NoDup m.*1 -> NoDup (obj_set m key v).*1.
Proof.
  induction m as [|[k w] m IH]; cbn; intros Hnd.
  - apply NoDup_singleton.
  - apply NoDup_cons in Hnd as [Hk Hnd].
    destruct (String.eqb k key) eqn:E; cbn; apply NoDup_cons; [done|].
    split; [|by apply IH]. apply String.eqb_neq in E.
    intros [?|?]%obj_set_keys; done.
Qed.

End PropsFacts.

(** ** The selection compiler yields objects: no key occurs twice *)

Lemma processNestedSelections_NoDup selectionSet result :
  NoDup result.*1 -> NoDup (processNestedSelections selectionSet result).*1.
Proof.
  destruct selectionSet as [sels]. cbn. revert result.
  induction sels as [|[name [sub|]| |] rest IH]; intros result Hnd;
    try done; apply IH; try done; by apply obj_set_keys_NoDup.
Qed.



(** ** Projection *)

Lemma filterResponse_object props selections :
  filterResponse (JObj props) selections
  = JObj (filter_fields filterResponse_sel props (sel_fields selections) []).
Proof. by destruct selections. Qed.

Lemma filterResponse_array items selections :
  filterResponse (JArr items) selections
  = JArr (map (fun item => filterResponse item selections) items).
Proof. by destruct selections. Qed.

Lemma filterResponse_scalar data selections :
  is_object data = false -> filterResponse data selections = data.
Proof. by destruct selections, data. Qed.

(** What [filter_fields] leaves under a key it does not meet. *)
Lemma filter_fields_other recur props fs result key :
  key ∉ fs.*1 ->
  obj_get (filter_fields recur props fs result) key = obj_get result key.
Proof.
  revert result. induction fs as [|[k sub] fs IH]; intros result Hk; cbn; [done|].
  cbn in Hk. apply not_elem_of_cons in Hk as [Hne Hk].
  destruct (obj_get props k) as [value|]; [|by apply IH].
  destruct (is_object value); rewrite IH by done; by apply obj_get_set_ne.
Qed.

(** What [filter_fields] stores under a selected key of the data. *)
Lemma filter_fields_selected recur props fs result key sub value :
  NoDup fs.*1 ->
  obj_get fs key = Some sub ->
  obj_get props key = Some value ->
  obj_get (filter_fields recur props fs result) key
  = Some (if is_object value then recur sub value else value).
Proof.
  revert result. induction fs as [|[k s] fs IH]; intros result Hnd Hsel Hval; [done|].
  cbn in Hnd, Hsel |- *. apply NoDup_cons in Hnd as [Hk Hnd].
  destruct (String.eqb k key) eqn:E.
  - apply String.eqb_eq in E as ->. injection Hsel as ->. rewrite Hval.
    destruct (is_object value); rewrite filter_fields_other by done;
      apply obj_get_set_eq.
  - destruct (obj_get props k) as [v|]; [|by apply IH].
    destruct (is_object v); by apply IH.
Qed.

(** C5, as the code has it: under a selected key whose child tree is
    empty, [filterResponse] turns an Object into the empty Object, maps
    itself with the empty tree over the items of an Array (so an Array
    stays an Array of the same length), and copies a scalar. *)
Theorem project_leaf_on_compound props selections key value :
  NoDup (sel_fields selections).*1 ->
  obj_get (sel_fields selections) key = Some no_selections ->
  obj_get props key = Some value ->
  exists result,
    filterResponse (JObj props) selections = JObj result /\
    obj_get result key
    = Some (match value with
            | JObj _ => empty_object
            | JArr items =>
                JArr (map (fun item => filterResponse item no_selections) items)
            | _ => value
            end).
Proof.
  intros Hnd Hsel Hval. eexists. split; [apply filterResponse_object|].
  rewrite (filter_fields_selected _ _ _ _ _ _ _ Hnd Hsel Hval).
  by destruct value.
Qed.

Lemma project_leaf_on_compound_witness :
  exists result,
    filterResponse (JObj [("a", JObj [("x", JNum 1)])]) (Sel [("a", Sel [])])
    = JObj result /\
    obj_get result "a" = Some empty_object.
Proof.
  apply (project_leaf_on_compound [("a", JObj [("x", JNum 1)])]
           (Sel [("a", Sel [])]) "a" (JObj [("x", JNum 1)])).
  - cbn. apply NoDup_singleton.
  - reflexivity.
  - reflexivity.
Defined.

(** The example of the specification: [{"a": {"x": 1}}] projected on
    [{"a": {}}] is [{"a": {}}]. *)
Example project_leaf_on_object :
  filterResponse (JObj [("a", JObj [("x", JNum 1)])]) (Sel [("a", Sel [])])
  = JObj [("a", JObj [])].
Proof. reflexivity. Qed.

(** C5 fails for an Array: [{"a": [1, 2]}] projected on [{"a": {}}] keeps
    the array under [a], it does not become the empty Object. *)
Lemma project_leaf_on_array :
  filterResponse (JObj [("a", JArr [JNum 1; JNum 2])]) (Sel [("a", Sel [])])
  = JObj [("a", JArr [JNum 1; JNum 2])] /\
  filterResponse (JObj [("a", JArr [JNum 1; JNum 2])]) (Sel [("a", Sel [])])
  <> JObj [("a", empty_object)].
Proof. split; [reflexivity | discriminate]. Qed.

(** ** The constructor *)

(** C10: a falsy [maxDepth] option (absent, [0] or [NaN]) gives the
    engine the limit [10], exactly as when the option is omitted; no
    option value makes the limit [0]. *)
Theorem falsy_maxDepth_is_10 options :
  falsy (opt_maxDepth options) = true ->
  maxDepth (new_JSONQL options) = 10 /\
  new_JSONQL options
  = new_JSONQL (mkOptions (opt_rootDir options) None (opt_cache options)) /\
  forall options', maxDepth (new_JSONQL options') <> 0.
Proof.
  intros Hf. assert (maxDepth_or_10 (opt_maxDepth options) = 10) as H10.
  { destruct (opt_maxDepth options) as [[n|]|]; cbn in *; [|done..]. by rewrite Hf. }
  split_and!.
  - done.
  - unfold new_JSONQL. cbn. by rewrite H10.
  - intros o. cbn. destruct (opt_maxDepth o) as [[n|]|]; cbn; [|done..].
    destruct (Z.eqb_spec n 0); lia.
Qed.

Lemma falsy_maxDepth_is_10_witness :
  maxDepth (new_JSONQL (mkOptions "data" (Some (Num 0)) None)) = 10 /\
  new_JSONQL (mkOptions "data" (Some (Num 0)) None)
  = new_JSONQL (mkOptions "data" None None) /\
  forall options', maxDepth (new_JSONQL options') <> 0.
Proof. apply (falsy_maxDepth_is_10 (mkOptions "data" (Some (Num 0)) None)). reflexivity. Defined.

(** ** The reference resolver *)

Ltac run :=
  unfold bind, ret, throw, out_of_fuel, try_catch, get_this, update_this,
    loadJSON, visitedRefs_add, visitedRefs_delete, visitedRefs_clear,
    cache_set_if_enabled, clearCache, log_load, with_visitedRefs, with_cache;
  cbn.

Lemma add_delete_fresh (ref : string) (s : gset string) :
  ref ∉ s -> ({[ref]} ∪ s) ∖ {[ref]} = s.
Proof.
  intros Hfresh. apply set_eq. intros x.
  rewrite elem_of_difference, elem_of_union, elem_of_singleton.
  split; [tauto|]. intros Hx. split; [by right|]. by intros ->.
Qed.

Section Resolver.
Variable host : Host.

Lemma resolveRef_exceeded ref depth w :
  maxDepth (this w) < depth ->
  resolveRef host ref depth w = (Thrown (MaxDepthExceeded (Some ref)), w).
Proof.
  intros Hd. unfold resolveRef, bind, get_this.
  by destruct (Z.ltb_spec (maxDepth (this w)) depth); [|lia].
Qed.

Lemma resolveRef_cycle ref depth w :
  depth <= maxDepth (this w) ->
  ref ∈ visitedRefs (this w) ->
  resolveRef host ref depth w = (Returned empty_object, w).
Proof.
  intros Hd Hv. unfold resolveRef, bind, get_this.
  destruct (Z.ltb_spec (maxDepth (this w)) depth); [lia|].
  by rewrite bool_decide_eq_true_2.
Qed.

Lemma resolveRef_cached ref depth w v :
  depth <= maxDepth (this w) ->
  ref ∉ visitedRefs (this w) ->
  cached (this w) ref = Some v ->
  resolveRef host ref depth w = (Returned v, w).
Proof.
  intros Hd Hv Hc. unfold resolveRef, bind at 1, get_this.
  destruct (Z.ltb_spec (maxDepth (this w)) depth); [lia|].
  rewrite bool_decide_eq_false_2 by done.
  unfold bind at 1. cbn. rewrite Hc.
  destruct w as [[root limit c en vis] calls]. run.
  by rewrite add_delete_fresh.
Qed.

Lemma resolveRef_loaded ref depth w :
  depth <= maxDepth (this w) ->
  ref ∉ visitedRefs (this w) ->
  cached (this w) ref = None ->
  resolveRef host ref depth w
  = (Returned (resolve_value host (rootDir (this w)) ref),
     {| this := remember host (this w) ref;
        loadCalls := loadCalls w ++ [ref_filePath ref] |}).
Proof.
  intros Hd Hv Hc. unfold resolveRef, bind at 1, get_this.
  destruct (Z.ltb_spec (maxDepth (this w)) depth); [lia|].
  rewrite bool_decide_eq_false_2 by done.
  unfold bind at 1. cbn. rewrite Hc.
  destruct w as [[root limit c en vis] calls]; cbn in *.
  pose proof (add_delete_fresh ref vis Hv) as Hvis.
  unfold resolve_value, remember, resolve_result. cbn.
  destruct (no_fragment (ref_fragment ref)); run;
    destruct (read_document host root (ref_filePath ref)) as [doc|e]; cbn;
    try destruct (navigate _ _ doc _) as [r|e']; destruct en; cbn;
    by rewrite Hvis.
Qed.


End Resolver.



Section ResolverErrors.
Variable host : Host.

(** C4, as the code has it: when the path of a reference fails to load
    (no such file, or a text that is not JSON) and the reference is not
    served from the cache, [resolveRef] catches the store's error and
    returns the empty object: nothing is thrown, nothing is cached, the
    set of visited references is as before, and the store has been
    called once. *)
Theorem resolveRef_load_failure ref depth w e :
  read_document host (rootDir (this w)) (ref_filePath ref) = inr e ->
  depth <= maxDepth (this w) ->
  ref ∉ visitedRefs (this w) ->
  cached (this w) ref = None ->
  resolveRef host ref depth w
  = (Returned empty_object,
     {| this := this w; loadCalls := loadCalls w ++ [ref_filePath ref] |}).
Proof.
  intros Hread Hd Hv Hc. rewrite resolveRef_loaded by done.
  unfold resolve_value, remember, resolve_result. by rewrite Hread.
Qed.




End ResolverErrors.

Lemma resolveRef_load_failure_witness :
  resolveRef Demo.host "/missing.json" 0 (Demo.start None None)
  = (Returned empty_object,
     {| this := this (Demo.start None None);
        loadCalls := loadCalls (Demo.start None None) ++ ["/missing.json"] |}).
Proof.
  apply (resolveRef_load_failure Demo.host "/missing.json" 0
           (Demo.start None None) (FileNotFound "data/missing.json")).
  - reflexivity.
  - cbn. lia.
  - cbn. apply not_elem_of_empty.
  - reflexivity.
Defined.

(** C4 fails: resolving a reference to a file that does not exist, or to
    a file that is not JSON, returns [{}]; no error is surfaced. *)
Lemma load_failure_not_surfaced :
  fst (resolveRef Demo.host "/missing.json" 0 (Demo.start None None))
  = Returned empty_object /\
  fst (resolveRef Demo.host "/bad.json" 0 (Demo.start None None))
  = Returned empty_object /\
  read_document Demo.host "data" "/missing.json"
  = inr (FileNotFound "data/missing.json") /\
  read_document Demo.host "data" "/bad.json"
  = inr (JSONParseFailed "data/bad.json").
Proof. vm_compute. done. Qed.



(** ** Selective expansion against its cache-free reading *)

Lemma same_engine_refl w : same_engine w w.
Proof. by unfold same_engine. Qed.

Lemma same_engine_trans w1 w2 w3 :
  same_engine w1 w2 -> same_engine w2 w3 -> same_engine w1 w3.
Proof.
  unfold same_engine. intros (? & ? & ?) (? & ? & ?). split_and!; congruence.
Qed.

Lemma same_engine_sym w1 w2 : same_engine w1 w2 -> same_engine w2 w1.
Proof. unfold same_engine. intros (? & ? & ?). split_and!; congruence. Qed.

Section Expansion.
Variable host : Host.
Variable root : string.
Variable limit : Z.

Lemma ready_step w w' :
  ready host root limit w -> same_engine w w' -> settled host w' ->
  ready host root limit w'.
Proof.
  intros (? & ? & _) (? & ? & _) ?. unfold ready. split_and!; congruence.
Qed.

Lemma computes_ret {A} (a : A) : computes host root limit (ret a) (Some a).
Proof.
  intros w (? & ? & ?). exists w.
  split_and!; [done | apply same_engine_refl | done].
Qed.

Lemma computes_bind {A B} (c : M A) (k : A -> M B) o (p : A -> option B) :
  computes host root limit c o ->
  (forall a, o = Some a -> computes host root limit (k a) (p a)) ->
  computes host root limit (bind c k)
    (match o with Some a => p a | None => None end).
Proof.
  intros Hc Hk w Hw. destruct (Hc w Hw) as (w1 & E1 & S1 & T1).
  unfold bind. rewrite E1. destruct o as [a|]; cbn.
  - destruct (Hk a eq_refl w1) as (w2 & E2 & S2 & T2); [by eapply ready_step|].
    exists w2. split_and!; [done | by eapply same_engine_trans | done].
  - by exists w1.
Qed.

Lemma computes_map_M {A B} (f : A -> M B) (g : A -> option B) items :
  (forall item, computes host root limit (f item) (g item)) ->
  computes host root limit (map_M f items) (mapM g items).
Proof.
  intros Hf. induction items as [|item rest IH]; cbn.
  - apply computes_ret.
  - apply (computes_bind _ _ _ (fun y => mapM g rest ≫= λ k, mret (y :: k)));
      [apply Hf|].
    intros b _.
    apply (computes_bind _ _ _ (fun k => Some (b :: k))); [apply IH|].
    intros bs _. apply computes_ret.
Qed.

Lemma computes_expand_props recur recur' selections props result :
  (forall v s, computes host root limit (recur v s) (recur' v s)) ->
  computes host root limit (expand_props recur selections props result)
    (expansion_props recur' selections props result).
Proof.
  intros Hr. revert result.
  induction props as [|[key value] rest IH]; intros result; cbn.
  - apply computes_ret.
  - destruct (sel_has selections key || sel_is_empty selections)%bool;
      [|apply IH].
    apply (computes_bind _ _ _
             (fun v => expansion_props recur' selections rest
                         (obj_set result key v))); [apply Hr|].
    intros v _. apply IH.
Qed.

Lemma budget_of_exceeded depth : limit < depth -> budget_of limit depth = O.
Proof. unfold budget_of. lia. Qed.

Lemma budget_of_within depth :
  depth <= limit -> budget_of limit depth = S (budget_of limit (depth + 1)).
Proof. unfold budget_of. lia. Qed.

Lemma cache_ok_remember e ref :
  cache_ok host (rootDir e) (cache e) ->
  cache_ok host (rootDir (remember host e ref)) (cache (remember host e ref)).
Proof.
  intros Hc. unfold remember.
  destruct (resolve_result host (rootDir e) ref) as [v|] eqn:Hres; [|done].
  destruct (enableCache e); [|done]. cbn. intros r x.
  rewrite lookup_insert. case_decide as Hr; [|apply Hc].
  intros [= <-]. rewrite <- Hr. unfold resolve_value. by rewrite Hres.
Qed.

Lemma remember_same_engine e ref :
  rootDir (remember host e ref) = rootDir e /\
  maxDepth (remember host e ref) = maxDepth e /\
  enableCache (remember host e ref) = enableCache e /\
  visitedRefs (remember host e ref) = visitedRefs e.
Proof.
  unfold remember. destruct (resolve_result _ _ _); [|done].
  by destruct (enableCache e) eqn:E.
Qed.

(** From a settled state, [resolveRef] returns the value the reference
    stands for: the branch for an already visited reference is never
    taken. *)
Lemma computes_resolveRef ref depth :
  depth <= limit ->
  computes host root limit (resolveRef host ref depth)
    (Some (resolve_value host root ref)).
Proof.
  intros Hd w (Hroot & Hlimit & Hvis & Hc).
  assert (ref ∉ visitedRefs (this w)) as Hv
    by (rewrite Hvis; apply not_elem_of_empty).
  destruct (cached (this w) ref) as [v|] eqn:Hcached.
  - exists w. rewrite (resolveRef_cached _ _ _ _ v) by (done || lia).
    split_and!; [|apply same_engine_refl|done].
    cbn. do 2 f_equal. symmetry. rewrite <- Hroot. apply Hc.
    unfold cached in Hcached. by destruct (enableCache _).
  - eexists. rewrite resolveRef_loaded by (done || lia). rewrite Hroot.
    destruct (remember_same_engine (this w) ref) as (? & ? & ? & Hvis').
    split_and!; [done | done |].
    split; cbn; [by rewrite Hvis' | by apply cache_ok_remember].
Qed.

Lemma resolveAllRefs_fuel_computes fuel : forall data selections depth,
  (budget_of limit depth < fuel)%nat ->
  computes host root limit
    (resolveAllRefs_fuel host fuel data selections depth)
    (expansion host root (budget_of limit depth) data selections).
Proof.
  induction fuel as [|fuel IH]; intros data selections depth Hfuel; [lia|].
  intros w Hw. pose proof Hw as (Hroot & Hlimit & Hs).
  cbn [resolveAllRefs_fuel]. unfold bind at 1, get_this. rewrite Hlimit.
  destruct (Z.ltb_spec limit depth) as [Hd|Hd].
  { rewrite budget_of_exceeded by done. exists w. cbn.
    split_and!; [done | apply same_engine_refl | done]. }
  rewrite budget_of_within in * by done.
  assert (budget_of limit (depth + 1) < fuel)%nat as Hfuel' by lia.
  cbn [expansion].
  destruct data as [| b | n | s | items | props]; try (by apply computes_ret).
  - apply (computes_bind _ _ _ (fun items' => Some (JArr items')));
      [|intros; apply computes_ret|done].
    apply computes_map_M. intros item. by apply IH.
  - destruct (isRef (JObj props)).
    + apply (computes_bind _ _ _
               (fun resolved =>
                  expansion host root (budget_of limit (depth + 1)) resolved
                    selections)
               (computes_resolveRef _ _ Hd)); [|done].
      intros resolved _. by apply IH.
    + apply (computes_bind _ _ _ (fun result => Some (JObj result)));
        [|intros; apply computes_ret|done].
      apply computes_expand_props. intros v s. by apply IH.
Qed.

(** [resolveAllRefs] never runs out of fuel: from a settled state it ends
    with the expansion, or with "Max reference depth exceeded". *)
Lemma resolveAllRefs_computes data selections depth :
  computes host root limit (resolveAllRefs host data selections depth)
    (expansion host root (budget_of limit depth) data selections).
Proof.
  intros w Hw. pose proof Hw as (_ & Hlimit & _).
  unfold resolveAllRefs, bind at 1, get_this. rewrite Hlimit.
  apply resolveAllRefs_fuel_computes; [|done]. unfold fuel_for, budget_of. lia.
Qed.

End Expansion.

Lemma settled_ready host w :
  settled host w -> ready host (rootDir (this w)) (maxDepth (this w)) w.
Proof. by unfold ready. Qed.


(** ** Arrays *)

Section Arrays.
Variable host : Host.


End Arrays.

Lemma start_settled host limit caching : settled host (Demo.start limit caching).
Proof. split; [done|]. intros ref v. cbn. by rewrite lookup_empty. Qed.


Example expand_array_run :
  fst (resolveAllRefs Demo.host
         (JArr [ref_to "/authors/a1.json"; JNum 7]) (Sel [("name", Sel [])])
         0 (Demo.start None None))
  = Returned (JArr [JObj [("name", JStr "Orwell")]; JNum 7]).
Proof. vm_compute. reflexivity. Qed.

(** ** Unselected keys *)

Section Laziness.
Variable host : Host.




End Laziness.


(** The store is called for the selected reference only. *)
Example unselected_key_calls :
  loadCalls
    (snd (resolveAllRefs Demo.host
            (JObj [("title", JStr "1984"); ("author", ref_to "/authors/a1.json");
                   ("publisher", ref_to "/publishers/p1.json")])
            (Sel [("title", Sel []); ("author", Sel [("name", Sel [])])])
            0 (Demo.start None None)))
  = ["/authors/a1.json"].
Proof. vm_compute. reflexivity. Qed.

(** ** Chains of references and the depth limit *)

Section Chains.
Variable host : Host.
Variable root : string.








End Chains.

Section DepthBound.
Variable host : Host.


End DepthBound.


(** A chain of exactly two references with the limit 2 succeeds, a chain
    of two references with the limit 1 fails. *)
Example chain_of_two :
  fst (resolveAllRefs Demo.host (ref_to "/hop1.json") (Sel []) 0
         (Demo.start (Some (Num 2)) None)) = Returned (JStr "end") /\
  fst (resolveAllRefs Demo.host (ref_to "/hop1.json") (Sel []) 0
         (Demo.start (Some (Num 1)) None)) = Thrown (MaxDepthExceeded None).
Proof. vm_compute. done. Qed.


(** ** Queries and the cache *)

Section Queries.
Variable host : Host.

Lemma query_fields_outcome root limit rootData fs : forall result w,
  ready host root limit w ->
  exists w',
    query_fields host rootData fs result w
    = (answer_fields host root limit rootData fs result, w') /\
    same_engine w w' /\ settled host w'.
Proof.
  induction fs as [|[key selections] rest IH]; intros result w Hw; cbn.
  - exists w. pose proof Hw as (_ & _ & ?).
    split_and!; [done | apply same_engine_refl | done].
  - destruct (is_object rootData); cbn.
    2:{ exists w. pose proof Hw as (_ & _ & ?).
        split_and!; [done | apply same_engine_refl | done]. }
    destruct (get_member rootData key) as [value|]; [|by apply IH].
    destruct (resolveAllRefs_computes host root limit value selections 0 w Hw)
      as (w1 & E1 & S1 & T1).
    unfold bind. rewrite E1. unfold budget_of. rewrite Z.sub_0_r.
    destruct (expansion host root (Z.to_nat (limit + 1)) value selections)
      as [expanded|]; cbn.
    + destruct (IH (obj_set result key (filterResponse expanded selections)) w1)
        as (w2 & E2 & S2 & T2); [by eapply ready_step|].
      exists w2. split_and!; [done | by eapply same_engine_trans | done].
    + by exists w1.
Qed.

(** The outcome of [query] is a function of the documents: from every
    state whose cache agrees with them it is [answer]. *)
Lemma query_outcome entryFile queryStr w :
  cache_ok host (rootDir (this w)) (cache (this w)) ->
  exists w',
    query host entryFile queryStr w
    = (answer host (rootDir (this w)) (maxDepth (this w)) entryFile queryStr, w')
    /\ same_engine w w' /\ settled host w'.
Proof.
  intros Hc. destruct w as [[root limit c en vis] calls]. cbn in Hc.
  unfold query, answer. run.
  set (w0 := {| this := _; loadCalls := _ |}).
  assert (ready host root limit w0) as Hw0 by (by split_and!).
  destruct (read_document host root entryFile) as [rootData|e]; cbn.
  2:{ exists w0. by split_and!. }
  unfold processNestedQuery.
  destruct (parse host queryStr) as [ast|]; cbn.
  2:{ exists w0. by split_and!. }
  destruct (query_fields_outcome root limit rootData
              (selections_of_document ast []) [] w0 Hw0) as (w1 & E1 & S1 & T1).
  rewrite E1. exists w1.
  destruct (answer_fields _ _ _ _ _ _); by split_and!.
Qed.

Lemma answer_fields_total root limit rootData fs : forall result,
  answer_fields host root limit rootData fs result <> OutOfFuel.
Proof.
  induction fs as [|[key selections] rest IH]; intros result; cbn; [done|].
  destruct (is_object rootData); cbn; [|done].
  destruct (get_member rootData key); [|apply IH].
  destruct (expansion _ _ _ _ _); [apply IH | done].
Qed.

Lemma answer_total root limit entryFile queryStr :
  answer host root limit entryFile queryStr <> OutOfFuel.
Proof.
  unfold answer. destruct (read_document _ _ _); [|done].
  destruct (parse _ _); [|done].
  pose proof (answer_fields_total root limit j (selections_of_document d []) []).
  by destruct (answer_fields _ _ _ _ _ _).
Qed.

(** What holds in every state an engine goes through. *)
Lemma reachable_invariant options w :
  reachable host options w ->
  rootDir (this w) = opt_rootDir options /\
  maxDepth (this w) = maxDepth_or_10 (opt_maxDepth options) /\
  enableCache (this w) = cache_not_false (opt_cache options) /\
  settled host w.
Proof.
  induction 1 as [calls | w entryFile queryStr Hw IH | w Hw IH].
  - repeat split; try done; intros ref v; cbn; by rewrite lookup_empty.
  - destruct IH as (Hroot & Hlimit & Hen & _ & Hc).
    destruct (query_outcome entryFile queryStr w Hc)
      as (w' & E & (Hr & Hl & He) & Hs).
    rewrite E. cbn. split_and!; [congruence.. | done].
  - destruct IH as (Hroot & Hlimit & Hen & Hvis & _).
    repeat split; try done; intros ref v; cbn; by rewrite lookup_empty.
Qed.

(** Every query an engine is asked ends: with a value or with an
    error. *)
Lemma query_terminates options w entryFile queryStr :
  reachable host options w ->
  fst (query host entryFile queryStr w) <> OutOfFuel.
Proof.
  intros (_ & _ & _ & _ & Hc)%reachable_invariant.
  destruct (query_outcome entryFile queryStr w Hc) as (w' & E & _).
  rewrite E. apply answer_total.
Qed.

(** C7: the outcome of a query, value or error, is the same in every
    state of every engine with the same root directory and depth limit
    over the same documents: whatever the cache holds after earlier
    queries, after [clearCache], on a new engine, with caching enabled or
    disabled. *)
Theorem cache_transparent options options' w w' entryFile queryStr :
  reachable host options w ->
  reachable host options' w' ->
  opt_rootDir options = opt_rootDir options' ->
  maxDepth_or_10 (opt_maxDepth options)
  = maxDepth_or_10 (opt_maxDepth options') ->
  fst (query host entryFile queryStr w)
  = fst (query host entryFile queryStr w') /\
  fst (query host entryFile queryStr (snd (clearCache w)))
  = fst (query host entryFile queryStr w) /\
  fst (query host entryFile queryStr
         {| this := new_JSONQL options; loadCalls := [] |})
  = fst (query host entryFile queryStr w).
Proof.
  intros Hw Hw' Hroot Hlimit.
  assert (forall o x, reachable host o x ->
            fst (query host entryFile queryStr x)
            = answer host (opt_rootDir o) (maxDepth_or_10 (opt_maxDepth o))
                entryFile queryStr) as Hanswer.
  { intros o x (Hr & Hl & _ & _ & Hc)%reachable_invariant.
    destruct (query_outcome entryFile queryStr x Hc) as (x' & E & _).
    by rewrite E, Hr, Hl. }
  rewrite (Hanswer options w Hw), (Hanswer options' w' Hw').
  rewrite (Hanswer options _ (reach_clearCache _ _ _ Hw)).
  rewrite (Hanswer options _ (reach_new _ _ [])).
  by rewrite Hroot, Hlimit.
Qed.

End Queries.

(** The cache is filled by a first query; the same query gives the same
    result from the filled cache, from the cleared one, on a new engine
    and on an engine without cache. *)
Lemma cache_transparent_witness :
  fst (query Demo.host "/books.json" "{ books { title author { name } } }"
         (snd (query Demo.host "/books.json"
                 "{ books { title author { name } } }" (Demo.start None None))))
  = fst (query Demo.host "/books.json" "{ books { title author { name } } }"
           (Demo.start None (Some false))) /\
  fst (query Demo.host "/books.json" "{ books { title author { name } } }"
         (snd (clearCache
                 (snd (query Demo.host "/books.json"
                         "{ books { title author { name } } }"
                         (Demo.start None None))))))
  = fst (query Demo.host "/books.json" "{ books { title author { name } } }"
           (snd (query Demo.host "/books.json"
                   "{ books { title author { name } } }"
                   (Demo.start None None)))) /\
  fst (query Demo.host "/books.json" "{ books { title author { name } } }"
         {| this := new_JSONQL (Demo.options None None); loadCalls := [] |})
  = fst (query Demo.host "/books.json" "{ books { title author { name } } }"
           (snd (query Demo.host "/books.json"
                   "{ books { title author { name } } }"
                   (Demo.start None None)))).
Proof.
  apply (cache_transparent Demo.host (Demo.options None None)
           (Demo.options None (Some false))).
  - apply reach_query, reach_new.
  - apply reach_new.
  - reflexivity.
  - reflexivity.
Defined.

(** The end-to-end example of the specification, and the calls of the
    store with a filled cache: only the entry document is loaded. *)
Example query_books :
  fst (query Demo.host "/books.json" "{ books { title author { name } } }"
         (Demo.start None None))
  = Returned
      (JObj [("books",
              JArr [JObj [("title", JStr "1984");
                          ("author", JObj [("name", JStr "Orwell")])]])]) /\
  loadCalls
    (snd (query Demo.host "/books.json" "{ books { title author { name } } }"
            (Demo.start None None)))
  = ["/books.json"; "/authors/a1.json"] /\
  loadCalls
    (snd (query Demo.host "/books.json" "{ books { title author { name } } }"
            {| this := this (snd (query Demo.host "/books.json"
                                    "{ books { title author { name } } }"
                                    (Demo.start None None)));
               loadCalls := [] |}))
  = ["/books.json"].
Proof. vm_compute. done. Qed.

(** ** A document that refers to itself *)

(** C1 at the document [/p.json = {"a": {"$ref": "/p.json"}, "b": 1}]
    and the query [{ a { a } }]: the call ends, but neither with a
    circular-reference error nor with a value in which [{}] stands for
    the cyclic reference.  It is rejected with "Max reference depth
    exceeded", with the cache and without it; the set of visited
    references is empty whenever [resolveRef] is entered, so its test
    for a visited reference never succeeds. *)
Theorem selfref_ends_with_depth_error :
  fst (query Demo.host "/p.json" "{ a { a } }" (Demo.start None None))
  = Thrown (MaxDepthExceeded None) /\
  fst (query Demo.host "/p.json" "{ a { a } }" (Demo.start None (Some false)))
  = Thrown (MaxDepthExceeded None) /\
  loadCalls (snd (query Demo.host "/p.json" "{ a { a } }" (Demo.start None None)))
  = ["/p.json"; "/p.json"].
Proof. vm_compute. done. Qed.

(** ** The resolver of the compiled build *)

(** In [dist/test.js] a visited reference is an error. *)
Example Dist_cycle_is_error :
  fst (Dist.resolveRef Demo.host "/p.json" 0 Demo.visiting)
  = Thrown (CircularReference "/p.json").
Proof. vm_compute. reflexivity. Qed.

(** There a cached value is returned with the reference left in the set,
    so the next resolution of the same reference is taken for a cycle. *)
Example Dist_cache_hit_keeps_ref :
  let w1 := snd (Dist.resolveRef Demo.host "/p.json" 0 (Demo.start None None)) in
  let w2 := snd (Dist.resolveRef Demo.host "/p.json" 0 w1) in
  elements (visitedRefs (this w1)) = [] /\
  fst (Dist.resolveRef Demo.host "/p.json" 0 w1) = Returned Demo.selfref /\
  elements (visitedRefs (this w2)) = ["/p.json"] /\
  fst (Dist.resolveRef Demo.host "/p.json" 0 w2)
  = Thrown (CircularReference "/p.json").
Proof. vm_compute. done. Qed.

(** There the errors of the load and of the navigation are thrown, and
    the reference is left in the set. *)
Example Dist_errors_are_thrown :
  fst (Dist.resolveRef Demo.host "/missing.json" 0 (Demo.start None None))
  = Thrown (FileNotFound "data/missing.json") /\
  fst (Dist.resolveRef Demo.host "/books.json#/books/7" 0 (Demo.start None None))
  = Thrown (FragmentNotFound "/books/7" "/books.json") /\
  elements
    (visitedRefs
       (this (snd (Dist.resolveRef Demo.host "/books.json#/books/7" 0
                     (Demo.start None None)))))
  = ["/books.json#/books/7"].
Proof. vm_compute. done. Qed.

(** * Further properties of the engine *)

Local Open Scope list_scope.

(** ** The syntax of references *)

Lemma split_on_no_sep sep s :
  has_char sep s = false -> split_on sep s = [s].
Proof.
  induction s as [|c s IH]; cbn; [done|].
  intros [Hc Hs]%orb_false_iff. rewrite Hc, IH by done. done.
Qed.

Lemma split_on_sep sep a b :
  has_char sep a = false ->
  split_on sep (a +:+ String sep b) = a :: split_on sep b.
Proof.
  induction a as [|c a IH]; intros Ha.
  - change (split_on sep (String sep b)
            = EmptyString :: split_on sep b).
    cbn [split_on]. by rewrite Ascii.eqb_refl.
  - cbn in Ha. apply orb_false_iff in Ha as [Hc Ha].
    change (split_on sep (String c (a +:+ String sep b))
            = String c a :: split_on sep b).
    cbn [split_on]. by rewrite Hc, IH.
Qed.

Lemma split_on_cons sep c s :
  Ascii.eqb c sep = false ->
  split_on sep (String c s)
  = match split_on sep s with
    | [] => [String c EmptyString]
    | p :: ps => String c p :: ps
    end.
Proof. cbn. by intros ->. Qed.

Lemma split_on_not_nil sep s : split_on sep s <> [].
Proof.
  destruct s as [|c s]; cbn; [done|].
  destruct (Ascii.eqb c sep); [done|]. by destruct (split_on sep s).
Qed.

Lemma ref_parts_path_only p :
  has_char "#" p = false -> ref_filePath p = p /\ ref_fragment p = None.
Proof. intros H. unfold ref_filePath, ref_fragment. by rewrite split_on_no_sep. Qed.

Lemma ref_parts_hash p rest :
  has_char "#" p = false ->
  ref_filePath (p +:+ "#" +:+ rest) = p /\
  ref_fragment (p +:+ "#" +:+ rest) = Some (ref_filePath rest).
Proof.
  intros H. change (p +:+ "#" +:+ rest) with (p +:+ String "#" rest).
  unfold ref_filePath, ref_fragment. rewrite split_on_sep by done.
  split; [done|]. pose proof (split_on_not_nil "#" rest).
  by destruct (split_on "#" rest).
Qed.

Lemma ref_filePath_hash f junk :
  has_char "#" f = false -> ref_filePath (f +:+ "#" +:+ junk) = f.
Proof.
  intros H. change (f +:+ "#" +:+ junk) with (f +:+ String "#" junk).
  unfold ref_filePath. by rewrite split_on_sep.
Qed.

Lemma ref_filePath_no_hash f : has_char "#" f = false -> ref_filePath f = f.
Proof. intros H. unfold ref_filePath. by rewrite split_on_no_sep. Qed.

Section ReferenceSyntax.
Variable host : Host.

(** From a settled state and within the depth limit, [resolveRef]
    returns the value the reference stands for. *)
Lemma resolveRef_value ref depth w :
  settled host w ->
  depth <= maxDepth (this w) ->
  fst (resolveRef host ref depth w)
  = Returned (resolve_value host (rootDir (this w)) ref).
Proof.
  intros Hs Hd.
  destruct (computes_resolveRef host _ _ ref depth Hd w (settled_ready _ _ Hs))
    as (w' & E & _).
  by rewrite E.
Qed.

(** X1.  Only the text before the first [#] and the text between the first
    and the second [#] of a reference are used: what follows a second
    [#] is ignored, and a reference that ends in [#] stands for the whole
    document. *)
Theorem ref_after_second_hash_ignored p f junk depth w :
  has_char "#" p = false ->
  has_char "#" f = false ->
  settled host w ->
  depth <= maxDepth (this w) ->
  fst (resolveRef host (p +:+ "#" +:+ f +:+ "#" +:+ junk) depth w)
  = fst (resolveRef host (p +:+ "#" +:+ f) depth w) /\
  fst (resolveRef host (p +:+ "#") depth w) = fst (resolveRef host p depth w).
Proof.
  intros Hp Hf Hs Hd. rewrite !resolveRef_value by done.
  assert (forall r1 r2, ref_filePath r1 = ref_filePath r2 ->
            (ref_fragment r1 = ref_fragment r2 \/
             no_fragment (ref_fragment r1) = true /\
             no_fragment (ref_fragment r2) = true) ->
            resolve_value host (rootDir (this w)) r1
            = resolve_value host (rootDir (this w)) r2) as Hsame.
  { intros r1 r2 Hpath Hfrag. unfold resolve_value, resolve_result.
    rewrite Hpath. destruct (read_document _ _ _); [|done].
    destruct Hfrag as [->|[-> ->]]; done. }
  split; f_equal; apply Hsame.
  - destruct (ref_parts_hash p (f +:+ "#" +:+ junk) Hp) as [-> _].
    by destruct (ref_parts_hash p f Hp) as [-> _].
  - left. destruct (ref_parts_hash p (f +:+ "#" +:+ junk) Hp) as [_ ->].
    destruct (ref_parts_hash p f Hp) as [_ ->].
    by rewrite ref_filePath_hash, ref_filePath_no_hash.
  - change (p +:+ "#") with (p +:+ "#" +:+ "").
    destruct (ref_parts_hash p "" Hp) as [-> _].
    by destruct (ref_parts_path_only p Hp) as [-> _].
  - right. change (p +:+ "#") with (p +:+ "#" +:+ "").
    destruct (ref_parts_hash p "" Hp) as [_ ->].
    by destruct (ref_parts_path_only p Hp) as [_ ->].
Qed.

End ReferenceSyntax.

Lemma ref_after_second_hash_ignored_witness :
  fst (resolveRef Demo.host ("/books.json" +:+ "#" +:+ "/books/0/title" +:+ "#" +:+ "x")
         0 (Demo.start None None))
  = fst (resolveRef Demo.host ("/books.json" +:+ "#" +:+ "/books/0/title") 0
           (Demo.start None None)) /\
  fst (resolveRef Demo.host ("/books.json" +:+ "#") 0 (Demo.start None None))
  = fst (resolveRef Demo.host "/books.json" 0 (Demo.start None None)).
Proof.
  apply (ref_after_second_hash_ignored Demo.host "/books.json" "/books/0/title"
           "x" 0 (Demo.start None None)).
  - reflexivity.
  - reflexivity.
  - apply start_settled.
  - cbn. lia.
Defined.

(** The fragment and the path in the messages of the navigation errors
    do not influence the walk. *)
Lemma navigate_payload f1 p1 f2 p2 segments : forall v,
  match navigate f1 p1 v segments, navigate f2 p2 v segments with
  | inl a, inl b => a = b
  | inr _, inr _ => True
  | _, _ => False
  end.
Proof.
  induction segments as [|segment rest IH]; intros v; cbn; [done|].
  destruct (is_object v); cbn; [|done].
  destruct (get_member v segment); [apply IH | done].
Qed.

Lemma ref_parts_slash ref :
  ref_filePath ("/" +:+ ref) = "/" +:+ ref_filePath ref /\
  ref_fragment ("/" +:+ ref) = ref_fragment ref.
Proof.
  unfold ref_filePath, ref_fragment.
  change ("/" +:+ ref) with (String "/" ref).
  rewrite split_on_cons by done.
  pose proof (split_on_not_nil "#" ref). by destruct (split_on "#" ref).
Qed.

Lemma ref_filePath_no_slash ref :
  startsWith_slash ref = false -> startsWith_slash (ref_filePath ref) = false.
Proof.
  unfold ref_filePath. destruct ref as [|c ref]; [done|]. cbn.
  intros Hc. destruct (Ascii.eqb c "#"); [done|].
  by destruct (split_on "#" ref).
Qed.

Lemma fragmentPath_slash f :
  startsWith_slash f = false -> fragmentPath ("/" +:+ f) = fragmentPath f.
Proof. intros H. unfold fragmentPath. by rewrite H. Qed.

Lemma no_fragment_Some f : f <> "" -> no_fragment (Some f) = false.
Proof. intros H. cbn. by apply String.eqb_neq. Qed.

Section LeadingSlash.
Variable host : Host.

(** X2.  [loadJSON] drops one leading [/] of the path, so a reference with
    and without it stand for the same value. *)
Theorem path_leading_slash_optional ref depth w :
  startsWith_slash ref = false ->
  settled host w ->
  depth <= maxDepth (this w) ->
  fst (resolveRef host ("/" +:+ ref) depth w) = fst (resolveRef host ref depth w).
Proof.
  intros Hslash Hs Hd. rewrite !resolveRef_value by done. f_equal.
  unfold resolve_value, resolve_result.
  destruct (ref_parts_slash ref) as [-> ->].
  assert (read_document host (rootDir (this w)) ("/" +:+ ref_filePath ref)
          = read_document host (rootDir (this w)) (ref_filePath ref)) as ->.
  { unfold read_document. cbn. by rewrite ref_filePath_no_slash. }
  destruct (read_document _ _ _) as [document|]; [|done].
  destruct (no_fragment (ref_fragment ref)); [done|].
  pose proof (navigate_payload (default "" (ref_fragment ref))
                ("/" +:+ ref_filePath ref) (default "" (ref_fragment ref))
                (ref_filePath ref)
                (fragmentPath (default "" (ref_fragment ref))) document) as H.
  by destruct (navigate _ ("/" +:+ _) _ _), (navigate _ (ref_filePath ref) _ _).
Qed.

(** X3.  The walk drops one leading [/] of a fragment, so a non-empty
    fragment with and without it leads to the same value. *)
Theorem fragment_leading_slash_optional p f depth w :
  has_char "#" p = false ->
  has_char "#" f = false ->
  f <> "" ->
  startsWith_slash f = false ->
  settled host w ->
  depth <= maxDepth (this w) ->
  fst (resolveRef host (p +:+ "#" +:+ "/" +:+ f) depth w)
  = fst (resolveRef host (p +:+ "#" +:+ f) depth w).
Proof.
  intros Hp Hf Hne Hslash Hs Hd. rewrite !resolveRef_value by done. f_equal.
  unfold resolve_value, resolve_result.
  destruct (ref_parts_hash p ("/" +:+ f) Hp) as [-> ->].
  destruct (ref_parts_hash p f Hp) as [-> ->].
  rewrite (ref_filePath_no_hash ("/" +:+ f)) by done.
  rewrite (ref_filePath_no_hash f) by done.
  destruct (read_document _ _ _) as [document|]; [|done].
  rewrite (no_fragment_Some f), (no_fragment_Some ("/" +:+ f)) by done.
  cbn [default id]. rewrite fragmentPath_slash by done.
  pose proof (navigate_payload ("/" +:+ f) p f p (fragmentPath f) document) as H.
  by destruct (navigate ("/" +:+ f) _ _ _), (navigate f _ _ _).
Qed.

End LeadingSlash.

Lemma path_leading_slash_optional_witness :
  fst (resolveRef Demo.host ("/" +:+ "authors/a1.json") 0 (Demo.start None None))
  = fst (resolveRef Demo.host "authors/a1.json" 0 (Demo.start None None)).
Proof.
  apply (path_leading_slash_optional Demo.host "authors/a1.json" 0
           (Demo.start None None)).
  - reflexivity.
  - apply start_settled.
  - cbn. lia.
Defined.

Lemma fragment_leading_slash_optional_witness :
  fst (resolveRef Demo.host ("/books.json" +:+ "#" +:+ "/" +:+ "books/0/title")
         0 (Demo.start None None))
  = fst (resolveRef Demo.host ("/books.json" +:+ "#" +:+ "books/0/title") 0
           (Demo.start None None)).
Proof.
  apply (fragment_leading_slash_optional Demo.host "/books.json"
           "books/0/title" 0 (Demo.start None None)).
  - reflexivity.
  - reflexivity.
  - discriminate.
  - reflexivity.
  - apply start_settled.
  - cbn. lia.
Defined.





Section FragmentPrefix.
Variable host : Host.


End FragmentPrefix.


(** ** The resolution cache *)

Section CacheUse.
Variable host : Host.

Lemma cached_remember e ref v :
  enableCache e = true ->
  resolve_result host (rootDir e) ref = inl v ->
  cached (remember host e ref) ref = Some v.
Proof.
  intros Hen Hres. unfold remember, cached. rewrite Hres, Hen. cbn.
  by rewrite Hen, lookup_insert_eq.
Qed.


Lemma remember_disabled e ref :
  enableCache e = false -> remember host e ref = e.
Proof.
  intros Hen. unfold remember. destruct (resolve_result _ _ _); [|done].
  by rewrite Hen.
Qed.

(** X5.  With the cache enabled, a reference that resolves to a value is
    loaded at most once: a second [resolveRef] returns what the first
    one returned, without calling the store and without changing the
    engine. *)
Theorem resolveRef_served_from_cache ref depth depth' w v :
  enableCache (this w) = true ->
  resolve_result host (rootDir (this w)) ref = inl v ->
  ref ∉ visitedRefs (this w) ->
  depth <= maxDepth (this w) ->
  depth' <= maxDepth (this w) ->
  resolveRef host ref depth' (snd (resolveRef host ref depth w))
  = (fst (resolveRef host ref depth w), snd (resolveRef host ref depth w)).
Proof.
  intros Hen Hres Hv Hd Hd'.
  destruct (cached (this w) ref) as [v0|] eqn:Hc.
  - rewrite (resolveRef_cached host ref depth w v0) by done. cbn [fst snd this loadCalls].
    by apply resolveRef_cached.
  - rewrite (resolveRef_loaded host ref depth w) by done. cbn [fst snd this loadCalls].
    destruct (remember_same_engine host (this w) ref) as (Hr & Hl & He & Hvis).
    rewrite (resolveRef_cached _ _ _ _ v); cbn [fst snd this loadCalls].
    + unfold resolve_value. by rewrite Hres.
    + by rewrite Hl.
    + by rewrite Hvis.
    + by apply cached_remember.
Qed.



End CacheUse.

Lemma resolveRef_served_from_cache_witness :
  resolveRef Demo.host "/authors/a1.json" 3
    (snd (resolveRef Demo.host "/authors/a1.json" 0 (Demo.start None None)))
  = (fst (resolveRef Demo.host "/authors/a1.json" 0 (Demo.start None None)),
     snd (resolveRef Demo.host "/authors/a1.json" 0 (Demo.start None None))).
Proof.
  apply (resolveRef_served_from_cache Demo.host "/authors/a1.json" 0 3
           (Demo.start None None) Demo.author).
  - reflexivity.
  - reflexivity.
  - cbn. apply not_elem_of_empty.
  - cbn. lia.
  - cbn. lia.
Defined.



(** ** What expansion and queries leave in place *)

Lemma extends_refl w : extends w w.
Proof. unfold extends. by split_and!. Qed.

Lemma extends_trans w1 w2 w3 : extends w1 w2 -> extends w2 w3 -> extends w1 w3.
Proof.
  intros (S1 & V1 & C1 & D1 & L1) (S2 & V2 & C2 & D2 & L2).
  pose proof S1 as (_ & _ & He). unfold extends. split_and!.
  - by eapply same_engine_trans.
  - congruence.
  - by etrans.
  - intros Hen. rewrite D2 by congruence. by apply D1.
  - by etrans.
Qed.

Section Extends.
Variable host : Host.

Lemma extends_bind {A B} (c : M A) (k : A -> M B) w :
  extends w (snd (c w)) ->
  (forall a w1, extends w1 (snd (k a w1))) ->
  extends w (snd (bind c k w)).
Proof.
  intros Hc Hk. unfold bind. destruct (c w) as [[a| |] w1]; cbn in *; try done.
  eapply extends_trans; [done | apply Hk].
Qed.

Lemma extends_map_M {A B} (f : A -> M B) items :
  (forall item w, extends w (snd (f item w))) ->
  forall w, extends w (snd (map_M f items w)).
Proof.
  intros Hf. induction items as [|item rest IH]; intros w; cbn.
  - apply extends_refl.
  - apply extends_bind; [apply Hf|]. intros b w1.
    apply extends_bind; [apply IH|]. intros bs w2. apply extends_refl.
Qed.

Lemma extends_expand_props recur selections props :
  (forall v s w, extends w (snd (recur v s w))) ->
  forall result w, extends w (snd (expand_props recur selections props result w)).
Proof.
  intros Hr. induction props as [|[key value] rest IH]; intros result w; cbn.
  - apply extends_refl.
  - destruct (sel_has selections key || sel_is_empty selections)%bool;
      [|apply IH].
    apply extends_bind; [apply Hr|]. intros v w1. apply IH.
Qed.

Lemma extends_resolveRef ref depth w :
  extends w (snd (resolveRef host ref depth w)).
Proof.
  destruct (Z.lt_ge_cases (maxDepth (this w)) depth) as [Hd|Hd].
  { rewrite resolveRef_exceeded by done. apply extends_refl. }
  destruct (decide (ref ∈ visitedRefs (this w))) as [Hv|Hv].
  { rewrite resolveRef_cycle by done. apply extends_refl. }
  destruct (cached (this w) ref) as [v|] eqn:Hc.
  { rewrite (resolveRef_cached _ _ _ _ v) by done. apply extends_refl. }
  rewrite resolveRef_loaded by done. cbn [snd].
  destruct (remember_same_engine host (this w) ref) as (Hr & Hl & He & Hvis).
  unfold extends. cbn [this loadCalls]. split_and!; try done.
  - unfold remember. destruct (resolve_result _ _ _); [|done].
    destruct (enableCache (this w)) eqn:Hen; [|done]. cbn.
    apply insert_subseteq. unfold cached in Hc. by rewrite Hen in Hc.
  - intros Hen. by rewrite remember_disabled.
  - by apply prefix_app_r.
Qed.

Lemma extends_resolveAllRefs_fuel fuel : forall data selections depth w,
  extends w (snd (resolveAllRefs_fuel host fuel data selections depth w)).
Proof.
  induction fuel as [|fuel IH]; intros data selections depth w;
    [apply extends_refl|].
  cbn [resolveAllRefs_fuel]. unfold bind at 1, get_this.
  destruct (maxDepth (this w) <? depth); [apply extends_refl|].
  destruct data as [| b | n | s | items | props]; try apply extends_refl.
  - apply extends_bind; [|intros; apply extends_refl].
    apply extends_map_M. intros item w1. apply IH.
  - destruct (isRef (JObj props)).
    + apply extends_bind; [apply extends_resolveRef|]. intros v w1. apply IH.
    + apply extends_bind; [|intros; apply extends_refl].
      apply extends_expand_props. intros v s w1. apply IH.
Qed.

Lemma extends_resolveAllRefs data selections depth w :
  extends w (snd (resolveAllRefs host data selections depth w)).
Proof.
  unfold resolveAllRefs, bind, get_this. apply extends_resolveAllRefs_fuel.
Qed.

(** X8.  Whatever the state [resolveAllRefs] is started in and however it
    ends, it leaves the root directory, the depth limit, the cache flag
    and the set of visited references as they were, it removes or changes
    no cache entry (and adds none when the cache is disabled), and it
    only appends to the log of the store. *)
Theorem resolveAllRefs_extends data selections depth w :
  extends w (snd (resolveAllRefs host data selections depth w)).
Proof. apply extends_resolveAllRefs. Qed.

Lemma extends_query_fields rootData fs : forall result w,
  extends w (snd (query_fields host rootData fs result w)).
Proof.
  induction fs as [|[key selections] rest IH]; intros result w; cbn.
  - apply extends_refl.
  - destruct (is_object rootData); cbn; [|apply extends_refl].
    destruct (get_member rootData key); [|apply IH].
    apply extends_bind; [apply extends_resolveAllRefs|]. intros v w1. apply IH.
Qed.

(** X9.  Whatever the state [query] is started in and however it ends, the
    set of visited references is empty afterwards, the root directory,
    the depth limit and the cache flag are as before, no cache entry has
    been removed or changed (none added when the cache is disabled), and
    the log of the store has been extended, first by the entry file. *)
Theorem query_extends entryFile queryStr w :
  same_engine w (snd (query host entryFile queryStr w)) /\
  visitedRefs (this (snd (query host entryFile queryStr w))) = ∅ /\
  cache (this w) ⊆ cache (this (snd (query host entryFile queryStr w))) /\
  (enableCache (this w) = false ->
   cache (this (snd (query host entryFile queryStr w))) = cache (this w)) /\
  (loadCalls w ++ [entryFile])%list
    `prefix_of` loadCalls (snd (query host entryFile queryStr w)).
Proof.
  set (w0 := {| this := this w; loadCalls := (loadCalls w ++ [entryFile])%list |}).
  set (w1 := {| this := with_visitedRefs (fun _ => ∅) (this w);
                loadCalls := (loadCalls w ++ [entryFile])%list |}).
  assert (forall w', extends w1 w' ->
            same_engine w w' /\ visitedRefs (this w') = ∅ /\
            cache (this w) ⊆ cache (this w') /\
            (enableCache (this w) = false -> cache (this w') = cache (this w)) /\
            (loadCalls w ++ [entryFile])%list `prefix_of` loadCalls w') as Hfrom.
  { intros w' (S & V & C & D & L). done. }
  apply Hfrom. unfold query. run.
  fold w1. destruct (read_document host (rootDir (this w)) entryFile); cbn;
    [|apply extends_refl].
  unfold processNestedQuery. destruct (parse host queryStr); cbn;
    [|apply extends_refl].
  pose proof (extends_query_fields j (selections_of_document d []) [] w1) as H.
  by destruct (query_fields _ _ _ _ _) as [[?| |] ?].
Qed.

End Extends.

(** ** Values without references *)





Lemma obj_set_fresh {A} (m : list (string * A)) key v :
  key ∉ m.*1 -> obj_set m key v = m ++ [(key, v)].
Proof.
  induction m as [|[k w] m IH]; cbn; [done|].
  intros [Hne Hk]%not_elem_of_cons.
  rewrite (proj2 (String.eqb_neq k key)) by congruence. by rewrite IH.
Qed.

Section RefFree.
Variable host : Host.

Lemma map_M_ref_free (f : JSONValue -> M JSONValue) g items w :
  (forall item, ref_free item = true -> f item w = (outcome_of (g item), w)) ->
  forallb ref_free items = true ->
  map_M f items w = (outcome_of (mapM g items), w).
Proof.
  intros Hf. induction items as [|item rest IH]; cbn; [done|].
  intros [Hi Hrest]%andb_true_iff. unfold bind. rewrite Hf by done.
  destruct (g item) as [b|]; cbn; [|done]. rewrite IH by done.
  by destruct (mapM g rest).
Qed.

Lemma expand_props_ref_free recur recur' selections props w : forall result,
  (forall v s, ref_free v = true -> recur v s w = (outcome_of (recur' v s), w)) ->
  forallb (fun kv => ref_free (snd kv)) props = true ->
  expand_props recur selections props result w
  = (outcome_of (expansion_props recur' selections props result), w).
Proof.
  induction props as [|[key value] rest IH]; intros result Hr; cbn; [done|].
  intros [Hv Hrest]%andb_true_iff.
  destruct (sel_has selections key || sel_is_empty selections)%bool;
    [|by apply IH].
  unfold bind. rewrite Hr by done.
  destruct (recur' value (sel_child selections key)); cbn; [|done].
  by apply IH.
Qed.

Lemma resolveAllRefs_fuel_ref_free fuel : forall data selections depth w,
  ref_free data = true ->
  (budget_of (maxDepth (this w)) depth < fuel)%nat ->
  resolveAllRefs_fuel host fuel data selections depth w
  = (outcome_of (expansion host (rootDir (this w))
                   (budget_of (maxDepth (this w)) depth) data selections), w).
Proof.
  induction fuel as [|fuel IH]; intros data selections depth w Hfree Hfuel;
    [lia|].
  cbn [resolveAllRefs_fuel]. unfold bind at 1, get_this.
  destruct (Z.ltb_spec (maxDepth (this w)) depth) as [Hd|Hd].
  { by rewrite budget_of_exceeded. }
  rewrite budget_of_within in * by done.
  assert (budget_of (maxDepth (this w)) (depth + 1) < fuel)%nat as Hfuel' by lia.
  cbn [expansion].
  destruct data as [| b | n | s | items | props]; try done.
  - cbn in Hfree. unfold bind.
    rewrite (map_M_ref_free _
               (fun item => expansion host (rootDir (this w))
                              (budget_of (maxDepth (this w)) (depth + 1))
                              item selections)); [| |done].
    + by destruct (mapM _ items).
    + intros item Hi. by apply IH.
  - cbn [ref_free] in Hfree. apply andb_true_iff in Hfree as [Href Hfree].
    apply negb_true_iff in Href. rewrite Href. unfold bind.
    rewrite (expand_props_ref_free _
               (expansion host (rootDir (this w))
                  (budget_of (maxDepth (this w)) (depth + 1)))); [| |done].
    + by destruct (expansion_props _ _ _ _).
    + intros v s Hv. by apply IH.
Qed.

(** X10.  Expanding a value that contains no reference calls neither the
    store nor the cache: whatever the selections and the outcome, the
    state is left as it was. *)
Theorem ref_free_state_untouched data selections depth w :
  ref_free data = true ->
  snd (resolveAllRefs host data selections depth w) = w.
Proof.
  intros Hfree. unfold resolveAllRefs, bind, get_this.
  rewrite resolveAllRefs_fuel_ref_free; [done | done |].
  unfold fuel_for, budget_of. lia.
Qed.








End RefFree.

Lemma ref_free_state_untouched_witness :
  snd (resolveAllRefs Demo.host Demo.author (Sel [("name", Sel [])]) 0
         (Demo.start None None))
  = Demo.start None None.
Proof.
  apply (ref_free_state_untouched Demo.host Demo.author
           (Sel [("name", Sel [])]) 0 (Demo.start None None)).
  reflexivity.
Defined.



(** A document of two levels and no reference is rejected by an engine
    whose limit is 1. *)
Example nested_document_exceeds_limit :
  fst (resolveAllRefs Demo.host (JObj [("a", JObj [("b", JNum 1)])]) (Sel []) 0
         (Demo.start (Some (Num 1)) None))
  = Thrown (MaxDepthExceeded None).
Proof. vm_compute. reflexivity. Qed.

(** ** The keys of expanded and projected objects *)

Section ObjectKeys.
Variable host : Host.



End ObjectKeys.


Lemma filter_fields_omap recur props fs : forall result,
  NoDup (result.*1 ++ fs.*1) ->
  filter_fields recur props fs result
  = result ++ omap (projected_entry recur props) fs.
Proof.
  induction fs as [|[key sub] rest IH]; intros result Hnd; cbn.
  - by rewrite app_nil_r.
  - apply NoDup_app in Hnd as (Hr & Hdisj & Hkeys). cbn in Hkeys.
    apply NoDup_cons in Hkeys as [Hkey Hrest].
    assert (key ∉ result.*1) as Hfresh.
    { intros Hin. apply (Hdisj key Hin), list_elem_of_here. }
    assert (forall v, NoDup ((result ++ [(key, v)]).*1 ++ rest.*1)) as Hnd'.
    { intros v. rewrite fmap_app. cbn. rewrite <- app_assoc. cbn.
      apply NoDup_app. split_and!; [done | | by apply NoDup_cons].
      intros k Hk. by apply Hdisj. }
    unfold projected_entry at 1. cbn [fst snd].
    destruct (obj_get props key) as [value|].
    + destruct (is_object value); rewrite obj_set_fresh, IH by done;
        by rewrite <- app_assoc.
    + apply IH. apply NoDup_app. split_and!; [done | | done].
      intros k Hk Hin. apply (Hdisj k Hk). by apply list_elem_of_further.
Qed.

Lemma omap_projected_keys recur props fs :
  (omap (projected_entry recur props) fs).*1
  = List.filter (obj_has props) fs.*1.
Proof.
  induction fs as [|[key sub] rest IH]; cbn; [done|].
  unfold projected_entry at 1, obj_has at 1. cbn [fst snd].
  destruct (obj_get props key); cbn; by rewrite IH.
Qed.



(** ** Projection twice *)

Lemma Selections_nested_ind (P : Selections -> Prop) :
  (forall fs, Forall (fun field => P (snd field)) fs -> P (Sel fs)) ->
  forall s, P s.
Proof.
  intros H. fix IH 1. intros [fs]. apply H.
  induction fs as [|field rest IHfs]; constructor; [apply IH | apply IHfs].
Qed.

Lemma JSONValue_nested_ind (P : JSONValue -> Prop) :
  P JNull -> (forall b, P (JBool b)) -> (forall n, P (JNum n)) ->
  (forall s, P (JStr s)) ->
  (forall items, Forall P items -> P (JArr items)) ->
  (forall props, Forall (fun kv => P (snd kv)) props -> P (JObj props)) ->
  forall v, P v.
Proof.
  intros Hnull Hbool Hnum Hstr Harr Hobj. fix IH 1.
  intros [| b | n | s | items | props];
    [exact Hnull | apply Hbool | apply Hnum | apply Hstr | |].
  - apply Harr. induction items as [|item rest IHl]; constructor;
      [apply IH | apply IHl].
  - apply Hobj. induction props as [|kv rest IHl]; constructor;
      [apply IH | apply IHl].
Qed.

Lemma sel_distinct_fields fs :
  sel_distinct (Sel fs)
  <-> NoDup fs.*1 /\ Forall (fun field => sel_distinct (snd field)) fs.
Proof.
  cbn. apply and_iff_compat_l.
  induction fs as [|field rest IH]; [by split|].
  rewrite Forall_cons. by rewrite IH.
Qed.

Lemma is_object_filterResponse data selections :
  is_object (filterResponse data selections) = is_object data.
Proof. by destruct selections, data. Qed.

Lemma obj_get_omap_projected recur props fs key sub :
  NoDup fs.*1 ->
  (key, sub) ∈ fs ->
  obj_get (omap (projected_entry recur props) fs) key
  = snd <$> projected_entry recur props (key, sub).
Proof.
  induction fs as [|[k s] rest IH]; intros Hnd Hin; [by apply elem_of_nil in Hin|].
  cbn in Hnd. apply NoDup_cons in Hnd as [Hk Hnd].
  apply elem_of_cons in Hin as [[= <- <-]|Hin].
  - cbn. unfold projected_entry. cbn [fst snd].
    destruct (obj_get props key); cbn; [by rewrite String.eqb_refl|].
    destruct (obj_get (omap _ rest) key) as [x|] eqn:Hget; [|done].
    exfalso. apply Hk. apply obj_get_Some_elem in Hget.
    apply (list_elem_of_fmap_2 fst) in Hget. cbn in Hget.
    rewrite omap_projected_keys in Hget.
    apply list_elem_of_In, filter_In in Hget as [Hget _].
    by apply list_elem_of_In.
  - assert (k <> key) as Hne.
    { intros ->. apply Hk. by apply (list_elem_of_fmap_2 fst) in Hin. }
    cbn. unfold projected_entry at 1. cbn [fst snd].
    destruct (obj_get props k); cbn; [|by apply IH].
    rewrite (proj2 (String.eqb_neq k key)) by done. by apply IH.
Qed.

Lemma omap_ext_in {A B} (f g : A -> option B) (l : list A) :
  Forall (fun x => f x = g x) l -> omap f l = omap g l.
Proof. induction 1 as [|x l Hx Hl IH]; cbn; [done|]. by rewrite Hx, IH. Qed.

(** X14.  Projecting a second time on the same selections changes nothing. *)
Theorem filterResponse_idempotent selections :
  sel_distinct selections ->
  forall data,
    filterResponse (filterResponse data selections) selections
    = filterResponse data selections.
Proof.
  induction selections as [fs IHfs] using Selections_nested_ind.
  intros [Hnd Hsub]%sel_distinct_fields.
  induction data as [| | | | items IHitems | props _] using JSONValue_nested_ind;
    try done.
  - rewrite !filterResponse_array. f_equal. rewrite map_map.
    apply map_ext_in. intros item Hin.
    eapply Forall_forall in IHitems; [apply IHitems | by apply list_elem_of_In].
  - rewrite filterResponse_object. cbn [sel_fields].
    rewrite filter_fields_omap by done. cbn [app].
    rewrite filterResponse_object. cbn [sel_fields].
    rewrite filter_fields_omap by done. cbn [app].
    apply f_equal, omap_ext_in, Forall_forall. intros [key sub] Hin.
    unfold projected_entry at 1. cbn [fst snd].
    rewrite (obj_get_omap_projected _ _ _ _ sub) by done.
    unfold projected_entry. cbn [fst snd].
    destruct (obj_get props key) as [value|]; cbn; [|done].
    destruct (is_object value) eqn:Hobj.
    + change (filterResponse_sel sub value) with (filterResponse value sub).
      rewrite is_object_filterResponse, Hobj.
      change (filterResponse_sel sub (filterResponse value sub))
        with (filterResponse (filterResponse value sub) sub).
      do 2 f_equal.
      eapply Forall_forall in IHfs; [|done]. eapply Forall_forall in Hsub; [|done].
      by apply IHfs.
    + by rewrite Hobj.
Qed.

Lemma filterResponse_idempotent_witness :
  filterResponse
    (filterResponse Demo.books (Sel [("books", Sel [("title", Sel [])])]))
    (Sel [("books", Sel [("title", Sel [])])])
  = filterResponse Demo.books (Sel [("books", Sel [("title", Sel [])])]).
Proof.
  apply (filterResponse_idempotent (Sel [("books", Sel [("title", Sel [])])])).
  cbn. repeat split; first [apply NoDup_singleton | apply NoDup_nil_2].
Defined.

(** ** The selection compiler *)

Lemma SelectionSet_nested_ind (P : SelectionSetNode -> Prop) :
  (forall sels,
     Forall (fun sel => match sel with
                        | Field _ (Some sub) => P sub
                        | _ => True
                        end) sels ->
     P (SelectionSet sels)) ->
  forall selectionSet, P selectionSet.
Proof.
  intros H. fix IH 1. intros [sels]. apply H.
  induction sels as [|sel rest IHl]; constructor; [|apply IHl].
  destruct sel as [name [sub|] | |]; [apply IH | exact I..].
Qed.

Lemma processNestedSelections_cons sel rest result :
  processNestedSelections (SelectionSet (sel :: rest)) result
  = processNestedSelections (SelectionSet rest)
      (match sel with
       | Field name sub => obj_set result name (field_tree sub)
       | _ => result
       end).
Proof. by destruct sel as [name [sub|] | |]. Qed.

Lemma processNestedSelections_app l1 l2 : forall result,
  processNestedSelections (SelectionSet (l1 ++ l2)) result
  = processNestedSelections (SelectionSet l2)
      (processNestedSelections (SelectionSet l1) result).
Proof.
  induction l1 as [|sel rest IH]; intros result; [done|].
  change ((sel :: rest) ++ l2) with (sel :: (rest ++ l2)).
  by rewrite !processNestedSelections_cons, IH.
Qed.

Lemma processNestedSelections_other name sels : forall result,
  forallb (fun sel => negb (is_field_named name sel)) sels = true ->
  obj_get (processNestedSelections (SelectionSet sels) result) name
  = obj_get result name.
Proof.
  induction sels as [|sel rest IH]; intros result; [done|].
  cbn [forallb]. intros [Hsel Hrest]%andb_true_iff.
  rewrite processNestedSelections_cons, IH by done.
  destruct sel as [n sub | |]; try done.
  cbn in Hsel. apply negb_true_iff, String.eqb_neq in Hsel.
  apply obj_get_set_ne. congruence.
Qed.

(** X15.  When a field occurs several times in a selection set, the tree of
    its last occurrence replaces the trees of the earlier ones: the
    selections of the occurrences are not merged. *)
Theorem repeated_field_last_wins before name sub after result :
  forallb (fun sel => negb (is_field_named name sel)) after = true ->
  obj_get
    (processNestedSelections
       (SelectionSet (before ++ Field name sub :: after)) result) name
  = Some (field_tree sub).
Proof.
  intros Hafter.
  rewrite processNestedSelections_app, processNestedSelections_cons.
  rewrite processNestedSelections_other by done. apply obj_get_set_eq.
Qed.

Lemma repeated_field_last_wins_witness :
  obj_get
    (processNestedSelections
       (SelectionSet
          ([Demo.node "a" [Demo.leaf "x"]]
           ++ Field "a" (Some (SelectionSet [Demo.leaf "y"])) :: [Demo.leaf "b"]))
       []) "a"
  = Some (field_tree (Some (SelectionSet [Demo.leaf "y"]))).
Proof.
  apply (repeated_field_last_wins [Demo.node "a" [Demo.leaf "x"]] "a"
           (Some (SelectionSet [Demo.leaf "y"])) [Demo.leaf "b"] []).
  reflexivity.
Defined.

(** [{ a { x } a { y } }] selects [y] of [a] only. *)
Example repeated_field_example :
  processNestedSelections
    (SelectionSet [Demo.node "a" [Demo.leaf "x"]; Demo.node "a" [Demo.leaf "y"]])
    []
  = [("a", Sel [("y", Sel [])])].
Proof. reflexivity. Qed.

(** X16.  Fragment spreads and inline fragments add nothing to the selection
    tree: a selection set compiles to the tree of its fields alone. *)
Theorem only_fields_are_compiled sels result :
  processNestedSelections (SelectionSet sels) result
  = processNestedSelections (SelectionSet (List.filter is_field sels)) result.
Proof.
  revert result. induction sels as [|sel rest IH]; intros result; [done|].
  rewrite processNestedSelections_cons.
  destruct sel as [name sub | |]; cbn [List.filter is_field];
    rewrite ?processNestedSelections_cons; apply IH.
Qed.

Lemma obj_set_Forall {A} (P : A -> Prop) (m : list (string * A)) key v :
  Forall (fun kv => P (snd kv)) m -> P v ->
  Forall (fun kv => P (snd kv)) (obj_set m key v).
Proof.
  intros Hm Hv. induction Hm as [|[k w] m Hw Hm IH]; cbn.
  - by constructor.
  - destruct (String.eqb k key); constructor; done.
Qed.

Lemma processNestedSelections_distinct selectionSet : forall result,
  sel_distinct (Sel result) ->
  sel_distinct (Sel (processNestedSelections selectionSet result)).
Proof.
  induction selectionSet as [sels IHsels] using SelectionSet_nested_ind.
  induction IHsels as [|sel rest Hsel Hrest IH]; intros result Hres; [done|].
  rewrite processNestedSelections_cons. apply IH.
  destruct sel as [name sub | |]; try done.
  apply sel_distinct_fields in Hres as [Hnd Hall].
  apply sel_distinct_fields. split; [by apply obj_set_keys_NoDup|].
  apply obj_set_Forall; [done|].
  destruct sub as [sub|]; cbn [field_tree].
  - apply Hsel. apply sel_distinct_fields. split; [apply NoDup_nil_2 | done].
  - apply sel_distinct_fields. split; [apply NoDup_nil_2 | done].
Qed.

Lemma root_selections_cons sel rest rootSelections :
  root_selections (sel :: rest) rootSelections
  = root_selections rest
      (match sel with
       | Field name sub => obj_set rootSelections name (field_tree sub)
       | _ => rootSelections
       end).
Proof. by destruct sel as [name [sub|] | |]. Qed.

Lemma root_selections_distinct sels : forall rootSelections,
  sel_distinct (Sel rootSelections) ->
  sel_distinct (Sel (root_selections sels rootSelections)).
Proof.
  induction sels as [|sel rest IH]; intros result Hres; [done|].
  rewrite root_selections_cons. apply IH.
  destruct sel as [name sub | |]; try done.
  apply sel_distinct_fields in Hres as [Hnd Hall].
  apply sel_distinct_fields. split; [by apply obj_set_keys_NoDup|].
  apply obj_set_Forall; [done|].
  destruct sub as [sub|]; cbn [field_tree].
  - apply processNestedSelections_distinct, sel_distinct_fields.
    split; [apply NoDup_nil_2 | done].
  - apply sel_distinct_fields. split; [apply NoDup_nil_2 | done].
Qed.

(** X17.  The tree compiled from a query has no key twice at any level,
    whatever the query repeats. *)
Theorem compiled_selections_distinct definitions :
  sel_distinct (Sel (selections_of_document definitions [])).
Proof.
  assert (forall result, sel_distinct (Sel result) ->
            sel_distinct (Sel (selections_of_document definitions result))) as H.
  { induction definitions as [|[[sels]|] rest IH]; intros result Hres; cbn;
      [done | | by apply IH].
    by apply IH, root_selections_distinct. }
  apply H, sel_distinct_fields. split; [apply NoDup_nil_2 | done].
Qed.

(** ** The flat and the nested reading of a query *)

Lemma obj_set_key_set {A} (m : list (string * A)) key v :
  list_to_set (C := gset string) (obj_set m key v).*1
  = {[key]} ∪ list_to_set m.*1.
Proof.
  induction m as [|[k w] m IH]; cbn.
  - done.
  - destruct (String.eqb_spec k key) as [->|Hne]; cbn.
    + apply set_eq. intros x. rewrite !elem_of_union, elem_of_singleton. tauto.
    + rewrite IH. apply set_eq. intros x.
      rewrite !elem_of_union, !elem_of_singleton. tauto.
Qed.

Lemma sub_field_names_keys subs : forall result,
  sub_field_names subs (list_to_set result.*1)
  = list_to_set (processNestedSelections (SelectionSet subs) result).*1.
Proof.
  induction subs as [|sel rest IH]; intros result; [done|].
  rewrite processNestedSelections_cons.
  destruct sel as [name sub | |]; cbn [sub_field_names]; rewrite <- IH;
    [|done..].
  by rewrite obj_set_key_set.
Qed.

Lemma field_set_describes sub : describes (field_set sub) (field_tree sub).
Proof.
  destruct sub as [[subs]|]; [left | by right].
  cbn [field_set field_tree sel_fields].
  by rewrite <- sub_field_names_keys.
Qed.

Lemma obj_set_side_by_side sets trees key names tree :
  side_by_side sets trees -> describes names tree ->
  side_by_side (obj_set sets key names) (obj_set trees key tree).
Proof.
  unfold side_by_side. intros H Hd.
  induction H as [|[k1 s] [k2 t] sets trees [Hk Hst] Hrest IH]; cbn.
  - constructor; [by split | constructor].
  - cbn in Hk. subst k2. destruct (String.eqb k1 key); by constructor.
Qed.

Lemma extract_fields_side_by_side sels : forall sets trees,
  side_by_side sets trees ->
  side_by_side (extract_fields sels sets) (root_selections sels trees).
Proof.
  induction sels as [|sel rest IH]; intros sets trees H; [done|].
  rewrite root_selections_cons. destruct sel as [name sub | |]; cbn; try by apply IH.
  apply IH, obj_set_side_by_side; [done | apply field_set_describes].
Qed.

(** X18.  [extractFieldSelections] and [processNestedQuery] read a query alike:
    they list the same top-level fields in the same order; the set of a
    field with a selection set holds the keys of the field's selection
    tree, and the set of a field without one holds ["*"] while its tree
    is empty. *)
Theorem flat_and_nested_selections_agree definitions :
  Forall2 (fun s t => fst s = fst t /\ describes (snd s) (snd t))
    (extract_definitions definitions [])
    (selections_of_document definitions []).
Proof.
  assert (forall sets trees, side_by_side sets trees ->
            side_by_side (extract_definitions definitions sets)
              (selections_of_document definitions trees)) as H.
  { induction definitions as [|[[sels]|] rest IH]; intros sets trees Hst; cbn;
      [done | | by apply IH].
    by apply IH, extract_fields_side_by_side. }
  apply H. constructor.
Qed.

Example extractFieldSelections_books :
  fst (extractFieldSelections Demo.host "{ books { title author { name } } }"
         (Demo.start None None))
  = Returned [("books", {["title"; "author"]})].
Proof. vm_compute. reflexivity. Qed.

(** ** How a query fails and what it returns *)

Section QueryEdges.
Variable host : Host.

(** X19.  [query] loads the entry document before it parses the query text:
    when the document cannot be loaded the store's error is thrown
    whatever the query text is, and a query text the parser rejects is
    reported only after the document is loaded.  Either way the store has
    been called once, the set of visited references is empty and the
    cache is as it was. *)
Theorem query_fails_before_expanding entryFile queryStr w :
  match read_document host (rootDir (this w)) entryFile, parse host queryStr with
  | inr e, _ =>
      query host entryFile queryStr w = (Thrown e, query_started entryFile w)
  | inl _, None =>
      query host entryFile queryStr w
      = (Thrown QuerySyntaxError, query_started entryFile w)
  | inl _, Some _ => True
  end.
Proof.
  unfold query, processNestedQuery. run.
  destruct (read_document host (rootDir (this w)) entryFile); [|done].
  by destruct (parse host queryStr).
Qed.




End QueryEdges.




(** ** The resolver of the compiled build, in general *)

Section DistResolver.
Variable host : Host.

Lemma Dist_resolveRef_visited ref depth w :
  depth <= maxDepth (this w) ->
  ref ∈ visitedRefs (this w) ->
  Dist.resolveRef host ref depth w = (Thrown (CircularReference ref), w).
Proof.
  intros Hd Hv. unfold Dist.resolveRef, bind, get_this.
  destruct (Z.ltb_spec (maxDepth (this w)) depth); [lia|].
  by rewrite bool_decide_eq_true_2.
Qed.

(** X25.  In [dist/test.js] a value served from the cache leaves its reference
    in the set of visited references: the reference can be resolved from
    the cache once, and resolving it again fails with "Circular reference
    detected" although nothing is circular. *)
Theorem Dist_cached_ref_resolves_once ref depth depth' w v :
  cached (this w) ref = Some v ->
  ref ∉ visitedRefs (this w) ->
  depth <= maxDepth (this w) ->
  depth' <= maxDepth (this w) ->
  Dist.resolveRef host ref depth w = (Returned v, marked ref w) /\
  Dist.resolveRef host ref depth' (marked ref w)
  = (Thrown (CircularReference ref), marked ref w).
Proof.
  intros Hc Hv Hd Hd'. split.
  - unfold Dist.resolveRef, bind at 1, get_this.
    destruct (Z.ltb_spec (maxDepth (this w)) depth); [lia|].
    rewrite bool_decide_eq_false_2 by done. unfold bind at 1. cbn.
    by rewrite Hc.
  - apply Dist_resolveRef_visited; [done|]. cbn.
    apply elem_of_union_l. by apply elem_of_singleton.
Qed.


End DistResolver.

Lemma Dist_cached_ref_resolves_once_witness :
  Dist.resolveRef Demo.host "/p.json" 0
    (snd (Dist.resolveRef Demo.host "/p.json" 0 (Demo.start None None)))
  = (Returned Demo.selfref,
     marked "/p.json"
       (snd (Dist.resolveRef Demo.host "/p.json" 0 (Demo.start None None)))) /\
  Dist.resolveRef Demo.host "/p.json" 2
    (marked "/p.json"
       (snd (Dist.resolveRef Demo.host "/p.json" 0 (Demo.start None None))))
  = (Thrown (CircularReference "/p.json"),
     marked "/p.json"
       (snd (Dist.resolveRef Demo.host "/p.json" 0 (Demo.start None None)))).
Proof.
  apply (Dist_cached_ref_resolves_once Demo.host "/p.json" 0 2
           (snd (Dist.resolveRef Demo.host "/p.json" 0 (Demo.start None None)))
           Demo.selfref).
  - vm_compute. reflexivity.
  - apply (bool_decide_unpack
             ("/p.json"
                ∉ visitedRefs
                    (this (snd (Dist.resolveRef Demo.host "/p.json" 0
                                  (Demo.start None None)))))).
    vm_compute. exact I.
  - vm_compute. discriminate.
  - vm_compute. discriminate.
Defined.


(** ** Termination and the errors that can come out *)

Section Termination.
Variable host : Host.










End Termination.

(** ** The two passes of a query *)

Section TwoPasses.
Variable host : Host.




End TwoPasses.


(** ** The expansion of the compiled build *)

Lemma keys_within_array fields items :
  keys_within fields (JArr items) <-> Forall (keys_within fields) items.
Proof.
  cbn. induction items as [|item rest IH]; [by split|].
  rewrite Forall_cons. by rewrite IH.
Qed.

Lemma keys_within_object fields props :
  keys_within fields (JObj props)
  <-> Forall (fun kv => fst kv ∈ fields /\ keys_within fields (snd kv)) props.
Proof.
  cbn. induction props as [|kv rest IH]; [by split|].
  rewrite Forall_cons. by rewrite IH.
Qed.

Lemma obj_set_Forall_entry {A} (P : string * A -> Prop)
    (m : list (string * A)) key v :
  Forall P m -> P (key, v) -> Forall P (obj_set m key v).
Proof.
  intros Hm Hv. induction Hm as [|[k w] m Hw Hm IH]; cbn.
  - by constructor.
  - destruct (String.eqb k key) eqn:E; constructor; try done.
    apply String.eqb_eq in E. by subst k.
Qed.

Section DistExpansion.
Variable host : Host.

Lemma Dist_map_M_within (f : JSONValue -> M JSONValue) fields items :
  (forall item w v w', f item w = (Returned v, w') -> keys_within fields v) ->
  forall w r w', map_M f items w = (Returned r, w') ->
    Forall (keys_within fields) r.
Proof.
  intros Hf. induction items as [|item rest IH]; intros w r w'; cbn.
  - intros [= <- _]. constructor.
  - unfold bind. destruct (f item w) as [[v| |] w1] eqn:E1; try done.
    destruct (map_M f rest w1) as [[vs| |] w2] eqn:E2; try done.
    intros [= <- _]. constructor; [by eapply Hf | by eapply IH].
Qed.

Lemma Dist_expand_props_within recur fields props :
  "*" ∉ fields ->
  (forall value w v w', recur value w = (Returned v, w') ->
     keys_within fields v) ->
  forall result w r w',
    Forall (fun kv => fst kv ∈ fields /\ keys_within fields (snd kv)) result ->
    DistExpand.expand_props recur fields props result w = (Returned r, w') ->
    Forall (fun kv => fst kv ∈ fields /\ keys_within fields (snd kv)) r.
Proof.
  intros Hstar Hr. induction props as [|[key value] rest IH];
    intros result w r w' Hres; cbn.
  - by intros [= <- _].
  - unfold DistExpand.selected.
    rewrite (bool_decide_eq_false_2 ("*" ∈ fields)) by done.
    rewrite orb_false_r. case_bool_decide as Hkey; [|by apply IH].
    unfold bind. destruct (recur value w) as [[v| |] w1] eqn:E; try done.
    apply IH. apply obj_set_Forall_entry; [done|].
    split; [done | by eapply Hr].
Qed.

Lemma Dist_resolveAllRefs_fuel_within fields fuel :
  "*" ∉ fields ->
  forall data depth w v w',
    DistExpand.resolveAllRefs_fuel host fuel data fields depth w
    = (Returned v, w') ->
    keys_within fields v.
Proof.
  intros Hstar. induction fuel as [|fuel IH]; intros data depth w v w'; [done|].
  cbn [DistExpand.resolveAllRefs_fuel]. unfold bind at 1, get_this.
  destruct (maxDepth (this w) <? depth); [done|].
  destruct data as [| b | n | s | items | props];
    try (by intros [= <- _]).
  - unfold bind. destruct (map_M _ items w) as [[r| |] w1] eqn:E; try done.
    intros [= <- _]. apply keys_within_array.
    eapply Dist_map_M_within; [|done]. intros item w0 v0 w0'. apply IH.
  - destruct (isRef (JObj props)).
    + unfold bind.
      destruct (Dist.resolveRef host _ depth w) as [[resolved| |] w1]; try done.
      apply IH.
    + unfold bind.
      destruct (DistExpand.expand_props _ fields props [] w)
        as [[r| |] w1] eqn:E; try done.
      intros [= <- _]. apply keys_within_object.
      eapply Dist_expand_props_within; [done | | | done]; [|constructor].
      intros value w0 v0 w0'. apply IH.
Qed.

(** X27.  In [dist/test.js] the set of field names given to [resolveAllRefs]
    filters the objects of every level: unless the set holds ["*"], no
    object of the returned value, however deep and whether it comes from
    the document or from a resolved reference, has a key outside the
    set. *)
Theorem Dist_keys_within_fields data fields depth w v :
  "*" ∉ fields ->
  fst (DistExpand.resolveAllRefs host data fields depth w) = Returned v ->
  keys_within fields v.
Proof.
  intros Hstar. unfold DistExpand.resolveAllRefs, bind, get_this.
  destruct (DistExpand.resolveAllRefs_fuel _ _ _ _ _ _) as [o w'] eqn:E.
  cbn. intros ->. by eapply Dist_resolveAllRefs_fuel_within.
Qed.

End DistExpansion.

Lemma Dist_keys_within_fields_witness :
  keys_within {["title"; "author"]}
    (JArr [JObj [("title", JStr "1984"); ("author", JObj [])]]).
Proof.
  apply (Dist_keys_within_fields Demo.host
           (JArr [JObj [("title", JStr "1984");
                        ("author", ref_to "/authors/a1.json");
                        ("publisher", ref_to "/publishers/p1.json")]])
           {["title"; "author"]} 0 (Demo.start None None)).
  - apply (bool_decide_unpack ("*" ∉ ({["title"; "author"]} : gset string))).
    vm_compute. exact I.
  - vm_compute. reflexivity.
Defined.
